(** * PixiParticles: the utility layer and the polygonal-chain spawn strategy

    A shallow embedding of [src/ParticleUtils.js] and of the
    [SpawnPolygonStrategy] class, with the properties the specification
    states about them.

    JavaScript Numbers are IEEE 754 binary64 values; they are modelled by
    Rocq's primitive [float], whose operations are the same binary64
    operations (round to nearest, ties to even), with one NaN. *)

From Stdlib Require Import ZArith Lia List Bool Ascii String Floats.
From stdpp Require Import base option list gmap strings.

Open Scope Z_scope.

(* ===================================================================== *)
(** * The JavaScript values the code computes with *)
(* ===================================================================== *)

Module JS.

(** ** Numbers *)

(** The integer part of a Number, rounded towards zero; 0 for NaN and the
    infinities (the first steps of ECMAScript's ToInt32). *)
Definition truncZ (v : float) : Z :=
  match Prim2SF v with
  | S754_finite sg m ex =>
      let a := Z.shiftl (Z.pos m) ex in if sg then - a else a
  | _ => 0
  end.

(** Reduction modulo 2^32 into the signed 32-bit range. *)
Definition wrap32 (z : Z) : Z := (z + 2 ^ 31) mod 2 ^ 32 - 2 ^ 31.

(** [v | 0] and the conversion of the operands of [<<] and [|]. *)
Definition ToInt32 (v : float) : Z := wrap32 (truncZ v).

(** An integer (an array length, a 32-bit result, the digits [parseInt]
    read) as a Number: the nearest binary64 value, exact below 2^53. *)
Definition numOfZ (z : Z) : float :=
  if Z.abs z <? 2 ^ 63 then
    if z <? 0 then (- of_uint63 (Uint63.of_Z (- z)))%float
    else of_uint63 (Uint63.of_Z z)
  else SF2Prim (binary_normalize prec emax z 0 false).

(** [a << n] and [a | b] on 32-bit integers. *)
Definition shl32 (a n : Z) : Z := wrap32 (Z.shiftl a (n mod 32)).
Definition or32 (a b : Z) : Z := Z.lor a b.

(** ToBoolean on a Number: [+0], [-0] and NaN are falsy. *)
Definition truthy (v : float) : bool := negb (is_zero v || is_nan v).

(** [a == b] and [a === b] on two Numbers; [a !== b] is its negation. *)
Definition eqNum (a b : float) : bool := (a =? b)%float.

(** [Math.PI]. *)
Definition Math_PI : float := 0x1.921fb54442d18p+1%float.

(** ** Arrays *)

(** [arr[i]] for an integer key: [undefined] (here [None]) outside
    [0 .. length-1]. *)
Definition arrayGet {A : Type} (arr : list A) (i : Z) : option A :=
  if i <? 0 then None else arr !! Z.to_nat i.

(** ** Strings (code units below 256) *)

(** [s.charAt(i)]: the one-character string at [i], or the empty one. *)
Definition charAt (i : nat) (str : string) : string :=
  match String.get i str with
  | Some c => String c EmptyString
  | None => EmptyString
  end.

(** [s.substr(start, len)] and [s.substr(start)] for a non-negative start;
    both stop at the end of the string. *)
Definition substr (start len : nat) (str : string) : string :=
  String.substring start len str.
Definition substrFrom (start : nat) (str : string) : string :=
  String.substring start (String.length str - start) str.

(** [s.indexOf(pat)]: the first position of [pat], or -1. *)
Definition indexOf (pat str : string) : Z :=
  match String.index 0 pat str with
  | Some n => Z.of_nat n
  | None => -1
  end.

(** [s.toUpperCase()] on the letters a-z. *)
Definition upperChar (c : ascii) : ascii :=
  let n := nat_of_ascii c in
  if ((97 <=? n) && (n <=? 122))%nat then ascii_of_nat (n - 32) else c.

Fixpoint toUpperCase (str : string) : string :=
  match str with
  | EmptyString => EmptyString
  | String c rest => String (upperChar c) (toUpperCase rest)
  end.

(** [s.replace(pat, rep)] for a string pattern: only the first occurrence
    is replaced. *)
Definition replace (pat rep str : string) : string :=
  match String.index 0 pat str with
  | Some n =>
      String.append (String.substring 0 n str)
        (String.append rep
           (substrFrom (n + String.length pat) str))
  | None => str
  end.

(** ** parseInt(string, 16) *)

Definition isWhiteSpace (c : ascii) : bool :=
  let n := nat_of_ascii c in
  ((9 <=? n) && (n <=? 13) || (n =? 32) || (n =? 160))%nat.

Fixpoint trimStart (str : string) : string :=
  match str with
  | String c rest => if isWhiteSpace c then trimStart rest else str
  | EmptyString => EmptyString
  end.

Definition hexDigit (c : ascii) : option Z :=
  let n := Z.of_nat (nat_of_ascii c) in
  if (48 <=? n) && (n <=? 57) then Some (n - 48)
  else if (65 <=? n) && (n <=? 70) then Some (n - 55)
  else if (97 <=? n) && (n <=? 102) then Some (n - 87)
  else None.

(** The longest prefix of hexadecimal digits, read most significant digit
    first: the number of digits and their value. *)
Fixpoint hexPrefix (str : string) (count : nat) (acc : Z) : nat * Z :=
  match str with
  | String c rest =>
      match hexDigit c with
      | Some d => hexPrefix rest (S count) (16 * acc + d)
      | None => (count, acc)
      end
  | EmptyString => (count, acc)
  end.

Definition stripSign (str : string) : bool * string :=
  match str with
  | String "-" rest => (true, rest)
  | String "+" rest => (false, rest)
  | _ => (false, str)
  end.

Definition stripHexPrefix (str : string) : string :=
  match str with
  | String "0" (String "x" rest) => rest
  | String "0" (String "X" rest) => rest
  | _ => str
  end.

Definition parseInt16 (str : string) : float :=
  let '(neg, body) := stripSign (trimStart str) in
  match hexPrefix (stripHexPrefix body) 0 0 with
  | (O, _) => nan
  | (_, v) => if neg then (- numOfZ v)%float else numOfZ v
  end.

End JS.

(* ===================================================================== *)
(** * Data *)
(* ===================================================================== *)

(** A mutable 2D point (PIXI.Point). *)
Module Point.
Record t : Type := mk { x : float; y : float }.
End Point.

(** One segment of an ease curve, as the curve-authoring tool writes it. *)
Module Segment.
Record t : Type := mk { s : float; cp : float; e : float }.
End Segment.

(* ===================================================================== *)
(** * ParticleUtils *)
(* ===================================================================== *)

Module ParticleUtils.

Definition DEG_TO_RADS : float := (JS.Math_PI / 180)%float.

Section Trigonometry.
(** [Math.sin] and [Math.cos] belong to the platform. *)
Variables Math_sin Math_cos : float -> float.

(** The point is updated in place; the function returns its new
    contents. *)
Definition rotatePoint (angle : float) (p : Point.t) : Point.t :=
  if negb (JS.truthy angle) then p
  else
    let angle := (angle * DEG_TO_RADS)%float in
    let s := Math_sin angle in
    let c := Math_cos angle in
    let xnew := (Point.x p * c - Point.y p * s)%float in
    let ynew := (Point.x p * s + Point.y p * c)%float in
    Point.mk xnew ynew.
End Trigonometry.

Definition combineRGBComponents (r g b : float) : float :=
  JS.numOfZ
    (JS.or32 (JS.or32 (JS.shl32 (JS.ToInt32 r) 16) (JS.shl32 (JS.ToInt32 g) 8))
             (JS.ToInt32 b)).

Definition length (point : Point.t) : float :=
  sqrt (Point.x point * Point.x point + Point.y point * Point.y point)%float.

Definition normalize (point : Point.t) : Point.t :=
  let oneOverLen := (1 / length point)%float in
  Point.mk (Point.x point * oneOverLen)%float (Point.y point * oneOverLen)%float.

Definition scaleBy (point : Point.t) (value : float) : Point.t :=
  Point.mk (Point.x point * value)%float (Point.y point * value)%float.

(** [output] is the optional array to reuse; the result is the contents of
    the returned array. *)
Definition hexToRGB (color : string) (output : option (list float)) : list float :=
  let output : list float :=
    match output with
    | Some _ => []          (* output.length = 0 *)
    | None => []            (* output = [] *)
    end in
  let color :=
    if String.eqb (JS.charAt 0 color) "#" then JS.substrFrom 1 color
    else if JS.indexOf "0x" color =? 0 then JS.substrFrom 2 color
    else color in
  let '(alpha, color) :=
    if (String.length color =? 8)%nat
    then (Some (JS.substr 0 2 color), JS.substrFrom 2 color)
    else (None, color) in
  let output := output ++ [JS.parseInt16 (JS.substr 0 2 color)] in
  let output := output ++ [JS.parseInt16 (JS.substr 2 2 color)] in
  let output := output ++ [JS.parseInt16 (JS.substr 4 2 color)] in
  match alpha with
  | Some a =>
      if negb (String.eqb a "") then output ++ [JS.parseInt16 a] else output
  | None => output
  end.

(** The index [simpleEase] computes for [time], and the segment it reads
    with it. *)
Definition easeIndex (qty : nat) (time : float) : Z :=
  JS.ToInt32 (JS.numOfZ (Z.of_nat qty) * time)%float.

Definition easeSegment (segments : list Segment.t) (i : Z) : option Segment.t :=
  match JS.arrayGet segments i with
  | Some sg => Some sg
  | None => JS.arrayGet segments (Z.of_nat (List.length segments) - 1)
  end.

(** The closure [simpleEase]; [None] stands for the TypeError of reading a
    field of [undefined]. [qty] is an array length, an integer, and
    [qty - 1] is computed on it as such. *)
Definition generateEase (segments : list Segment.t) : float -> option float :=
  let qty := List.length segments in
  let qtyN := JS.numOfZ (Z.of_nat qty) in
  let oneOverQty := (1 / qtyN)%float in
  fun time =>
    let i := easeIndex qty time in
    let t := ((time - JS.numOfZ i * oneOverQty) * qtyN)%float in
    match easeSegment segments i with
    | Some sg =>
        Some (Segment.s sg
              + t * (2 * (1 - t) * (Segment.cp sg - Segment.s sg)
                     + t * (Segment.e sg - Segment.s sg)))%float
    | None => None
    end.

Section BlendModes.
(** [PIXI.BLEND_MODES], the rendering library's table of blend modes. *)
Variable BLEND_MODES : gmap string Z.

(** The loop [while (name.indexOf(" ") >= 0) name = name.replace(" ", "_")];
    [None] when the fuel runs out before the loop ends. *)
Fixpoint replaceSpaces (fuel : nat) (name : string) : option string :=
  if JS.indexOf " " name >=? 0 then
    match fuel with
    | O => None
    | S fuel' => replaceSpaces fuel' (JS.replace " " "_" name)
    end
  else Some name.

(** [BLEND_MODES[name] || BLEND_MODES.NORMAL]; the inner [None] is
    [undefined]. *)
Definition lookupOrNormal (name : string) : option Z :=
  match BLEND_MODES !! name with
  | Some v => if v =? 0 then BLEND_MODES !! "NORMAL" else Some v
  | None => BLEND_MODES !! "NORMAL"
  end.

(** [name] is [None] for [undefined]. The outer [None] of the result
    means that the fuel did not suffice. *)
Definition getBlendMode_fuel (fuel : nat) (name : option string)
  : option (option Z) :=
  match name with
  | None => Some (BLEND_MODES !! "NORMAL")
  | Some name =>
      if String.eqb name "" then Some (BLEND_MODES !! "NORMAL")
      else
        match replaceSpaces fuel (JS.toUpperCase name) with
        | Some name => Some (lookupOrNormal name)
        | None => None
        end
  end.

(** One iteration per character of the name is enough. *)
Definition getBlendMode (name : option string) : option (option Z) :=
  getBlendMode_fuel (String.length (default "" name)) name.
End BlendModes.

End ParticleUtils.

(* ===================================================================== *)
(** * The polygonal-chain spawn strategy *)
(* ===================================================================== *)

(** Objects live in a store and are named by their address: a particle
    holds the address of its emitter and of the Point that is its position;
    several particles share one emitter; [Temp.point] is one Point that
    every call reuses. *)
Abbreviation addr := positive (only parsing).

(** Modelled from the spec: the Emitter class is not among the sources. It
    holds the emission configuration: position, rotation, the bounds of the
    start rotation, the tag of the active spawn type and the chain of the
    polygonal-chain shape. *)
Module Emitter.
Section Emitter.
Variable PolygonalChain : Type.
Record t : Type := mk {
  position : Point.t;
  rotation : float;
  minStartRotation : float;
  maxStartRotation : float;
  spawnType : string;
  spawnPolygonalChain : PolygonalChain
}.
End Emitter.
Arguments mk {PolygonalChain}.
Arguments position {PolygonalChain}.
Arguments rotation {PolygonalChain}.
Arguments minStartRotation {PolygonalChain}.
Arguments maxStartRotation {PolygonalChain}.
Arguments spawnType {PolygonalChain}.
Arguments spawnPolygonalChain {PolygonalChain}.
End Emitter.

(** Modelled from the spec: the Particle class is not among the sources. A
    particle has a rotation, a position (a Point object of its own) and a
    reference to the emitter that owns it. *)
Module Particle.
Record t : Type := mk {
  emitter : addr;
  rotation : float;
  position : addr
}.
End Particle.

Module SpawnPolygonStrategy.
Section Spawn.

(** The platform and the parts of the library that [spawn] calls:
    [Math.sin], [Math.cos]; [Math.random], a generator with a state of its
    own; the PolygonalChain class, which is not among the sources, with its
    [getRandomPoint(out)], which may draw random numbers and gives [out]
    its new contents. *)
Variables Math_sin Math_cos : float -> float.
Variable Rng : Type.
Variable Math_random : Rng -> float * Rng.
Variable PolygonalChain : Type.
Variable getRandomPoint : PolygonalChain -> Point.t -> Rng -> Point.t * Rng.

(** What [spawn] can reach: the emitters, the particles, the Point objects
    (the particles' positions and the scratch point), the address held by
    [Temp.point], and the state of the random generator. *)
Record Store : Type := mkStore {
  emitters : gmap addr (Emitter.t PolygonalChain);
  particles : gmap addr Particle.t;
  points : gmap addr Point.t;
  Temp_point : addr;
  rng : Rng
}.

(** Computations that read and write the store and may raise a TypeError
    ([None]): reading a field of an object that does not exist. *)
Definition M (A : Type) : Type := Store -> option (A * Store).

Definition ret {A : Type} (a : A) : M A := fun st => Some (a, st).

Definition bind {A B : Type} (c : M A) (k : A -> M B) : M B :=
  fun st =>
    match c st with
    | Some (a, st') => k a st'
    | None => None
    end.

Notation "x <- c ;; k" := (bind c (fun x => k))
  (at level 100, c at next level, right associativity).
Notation "c ;; k" := (bind c (fun _ => k))
  (at level 100, right associativity).

Definition getParticle (p : addr) : M Particle.t :=
  fun st => match particles st !! p with Some v => Some (v, st) | None => None end.

Definition getEmitter (a : addr) : M (Emitter.t PolygonalChain) :=
  fun st => match emitters st !! a with Some v => Some (v, st) | None => None end.

Definition getPoint (a : addr) : M Point.t :=
  fun st => match points st !! a with Some v => Some (v, st) | None => None end.

Definition getTemp : M addr := fun st => Some (Temp_point st, st).

Definition setPoint (a : addr) (pt : Point.t) : M unit :=
  fun st =>
    Some (tt, mkStore (emitters st) (particles st) (<[a := pt]> (points st))
                (Temp_point st) (rng st)).

(** [p.rotation = v] *)
Definition setRotation (p : addr) (v : float) : M unit :=
  part <- getParticle p ;;
  fun st =>
    Some (tt, mkStore (emitters st)
                (<[p := Particle.mk (Particle.emitter part) v (Particle.position part)]>
                   (particles st))
                (points st) (Temp_point st) (rng st)).

(** [pt.x = v] and [pt.y = v] on the Point at [a]. *)
Definition setX (a : addr) (v : float) : M unit :=
  pt <- getPoint a ;; setPoint a (Point.mk v (Point.y pt)).

Definition setY (a : addr) (v : float) : M unit :=
  pt <- getPoint a ;; setPoint a (Point.mk (Point.x pt) v).

(** [Math.random()] *)
Definition random : M float :=
  fun st =>
    let '(u, g) := Math_random (rng st) in
    Some (u, mkStore (emitters st) (particles st) (points st) (Temp_point st) g).

(** [chain.getRandomPoint(out)] on the Point at [out]. *)
Definition sampleInto (chain : PolygonalChain) (out : addr) : M unit :=
  pt <- getPoint out ;;
  fun st =>
    let '(pt', g) := getRandomPoint chain pt (rng st) in
    Some (tt, mkStore (emitters st) (particles st) (<[out := pt']> (points st))
                (Temp_point st) g).

(** [ParticleUtils.rotatePoint(angle, pt)] on the Point at [a]: nothing is
    read or written for a falsy angle. *)
Definition rotatePointAt (angle : float) (a : addr) : M unit :=
  if negb (JS.truthy angle) then ret tt
  else
    pt <- getPoint a ;;
    setPoint a (ParticleUtils.rotatePoint Math_sin Math_cos angle pt).

(** [spawn(p, emitPosX, emitPosY)] *)
Definition spawn (p : addr) (emitPosX emitPosY : float) : M unit :=
  part <- getParticle p ;;
  let emitter := Particle.emitter part in
  em <- getEmitter emitter ;;
  (if JS.eqNum (Emitter.minStartRotation em) (Emitter.maxStartRotation em)
   then
     setRotation p (Emitter.minStartRotation em + Emitter.rotation em)%float
   else
     u <- random ;;
     setRotation p
       (u * (Emitter.maxStartRotation em - Emitter.minStartRotation em)
        + Emitter.minStartRotation em + Emitter.rotation em)%float) ;;
  em <- getEmitter emitter ;;
  tmp <- getTemp ;;
  sampleInto (Emitter.spawnPolygonalChain em) tmp ;;
  em <- getEmitter emitter ;;
  (if negb (JS.eqNum (Emitter.rotation em) 0)
   then tmp <- getTemp ;; rotatePointAt (Emitter.rotation em) tmp
   else ret tt) ;;
  part <- getParticle p ;;
  tmp <- getTemp ;;
  scratch <- getPoint tmp ;;
  setX (Particle.position part) (emitPosX + Point.x scratch)%float ;;
  part <- getParticle p ;;
  tmp <- getTemp ;;
  scratch <- getPoint tmp ;;
  setY (Particle.position part) (emitPosY + Point.y scratch)%float.

(** The rotation [spawn] gives the particle, with the generator's state
    after it. *)
Definition startRotation (em : Emitter.t PolygonalChain) (g : Rng) : float * Rng :=
  if JS.eqNum (Emitter.minStartRotation em) (Emitter.maxStartRotation em)
  then ((Emitter.minStartRotation em + Emitter.rotation em)%float, g)
  else
    ((fst (Math_random g)
      * (Emitter.maxStartRotation em - Emitter.minStartRotation em)
      + Emitter.minStartRotation em + Emitter.rotation em)%float,
     snd (Math_random g)).

(** The chain's sample for a scratch point with contents [tmp], and the
    point [spawn] leaves in [Temp.point]: the sample, put through
    [rotatePoint] when the emitter's rotation is not zero. *)
Definition chainSample (em : Emitter.t PolygonalChain) (tmp : Point.t) (g : Rng)
  : Point.t * Rng :=
  getRandomPoint (Emitter.spawnPolygonalChain em) tmp (snd (startRotation em g)).

Definition spawnedPoint (em : Emitter.t PolygonalChain) (tmp : Point.t) (g : Rng)
  : Point.t :=
  let sample := fst (chainSample em tmp g) in
  if JS.eqNum (Emitter.rotation em) 0 then sample
  else ParticleUtils.rotatePoint Math_sin Math_cos (Emitter.rotation em) sample.

(** A particle that [spawn] can be called on: the particle, its emitter,
    its position and the scratch point exist. *)
Definition spawnable (st : Store) (p : addr) (part : Particle.t)
    (em : Emitter.t PolygonalChain) (tmp : Point.t) : Prop :=
  particles st !! p = Some part
  /\ emitters st !! Particle.emitter part = Some em
  /\ points st !! Temp_point st = Some tmp
  /\ is_Some (points st !! Particle.position part).

End Spawn.

Arguments emitters {Rng PolygonalChain}.
Arguments particles {Rng PolygonalChain}.
Arguments points {Rng PolygonalChain}.
Arguments Temp_point {Rng PolygonalChain}.
Arguments rng {Rng PolygonalChain}.
Arguments mkStore {Rng PolygonalChain}.
Arguments startRotation {Rng} Math_random {PolygonalChain}.
Arguments chainSample {Rng} Math_random {PolygonalChain} getRandomPoint.
Arguments spawnedPoint Math_sin Math_cos {Rng} Math_random {PolygonalChain} getRandomPoint.
Arguments spawn Math_sin Math_cos {Rng} Math_random {PolygonalChain} getRandomPoint.
Arguments spawnable {Rng PolygonalChain}.

Section ParseConfig.

(** What [parseConfig] needs besides the store: the description of the
    shape that the configuration holds in its [spawnPolygon] field, and the
    constructor of the PolygonalChain class, which is not among the
    sources. *)
Variable Rng : Type.
Variable PolygonalChain : Type.
Variable PolygonData : Type.
Variable newPolygonalChain : PolygonData -> PolygonalChain.

(** [emitter.spawnType = v] on the emitter at [a]. *)
Definition setSpawnType (a : addr) (v : string) : M Rng PolygonalChain unit :=
  bind Rng PolygonalChain (getEmitter Rng PolygonalChain a) (fun em st =>
    Some (tt, mkStore
                (<[a := Emitter.mk (Emitter.position em) (Emitter.rotation em)
                          (Emitter.minStartRotation em) (Emitter.maxStartRotation em)
                          v (Emitter.spawnPolygonalChain em)]> (emitters st))
                (particles st) (points st) (Temp_point st) (rng st))).

(** [emitter.spawnPolygonalChain = v] on the emitter at [a]. *)
Definition setSpawnPolygonalChain (a : addr) (v : PolygonalChain)
  : M Rng PolygonalChain unit :=
  bind Rng PolygonalChain (getEmitter Rng PolygonalChain a) (fun em st =>
    Some (tt, mkStore
                (<[a := Emitter.mk (Emitter.position em) (Emitter.rotation em)
                          (Emitter.minStartRotation em) (Emitter.maxStartRotation em)
                          (Emitter.spawnType em) v]> (emitters st))
                (particles st) (points st) (Temp_point st) (rng st))).

(** [parseConfig(emitter, config)]; [spawnPolygon] is the value of
    [config.spawnPolygon]. *)
Definition parseConfig (emitter : addr) (spawnPolygon : PolygonData)
  : M Rng PolygonalChain unit :=
  bind Rng PolygonalChain (setSpawnType emitter "polygonalChain") (fun _ =>
    setSpawnPolygonalChain emitter (newPolygonalChain spawnPolygon)).

(** The emitter [parseConfig] leaves in place of [em]: its spawn type and
    its chain are new, the rest is as it was. *)
Definition configured (em : Emitter.t PolygonalChain) (spawnPolygon : PolygonData)
  : Emitter.t PolygonalChain :=
  Emitter.mk (Emitter.position em) (Emitter.rotation em)
    (Emitter.minStartRotation em) (Emitter.maxStartRotation em)
    "polygonalChain" (newPolygonalChain spawnPolygon).

End ParseConfig.

Arguments parseConfig {Rng PolygonalChain PolygonData}.
Arguments configured {PolygonalChain PolygonData}.

End SpawnPolygonStrategy.

(* ===================================================================== *)
(** * Vocabulary of the specification *)
(* ===================================================================== *)

(** What the statements below compare the program with. Nothing here is
    part of the program. *)
Module Spec.

(** The floor of a finite Number, as an integer: a finite non-zero binary64
    value is [+-m * 2^ex]. *)
Definition floorSF (v : spec_float) : option Z :=
  match v with
  | S754_zero _ => Some 0
  | S754_finite sg m ex =>
      Some (Z.shiftl (if sg then Z.neg m else Z.pos m) ex)
  | _ => None
  end.

Definition floorZ (v : float) : option Z := floorSF (Prim2SF v).

(** A hexadecimal digit, and the value of a channel written with two of
    them. *)
Definition isHex (c : ascii) : bool :=
  match JS.hexDigit c with Some _ => true | None => false end.

Definition hexValue (c : ascii) : Z := default 0 (JS.hexDigit c).

Definition channel (hi lo : ascii) : float :=
  JS.numOfZ (16 * hexValue hi + hexValue lo).

(** The six digits RRGGBB as a string. *)
Definition rgbDigits (r1 r2 g1 g2 b1 b2 : ascii) : string :=
  String r1 (String r2 (String g1 (String g2 (String b1 (String b2 EmptyString))))).

(** The eight digits AARRGGBB as a string. *)
Definition argbDigits (a1 a2 r1 r2 g1 g2 b1 b2 : ascii) : string :=
  String a1 (String a2 (rgbDigits r1 r2 g1 g2 b1 b2)).

(** A name with every space turned into an underscore. *)
Fixpoint underscored (name : string) : string :=
  match name with
  | EmptyString => EmptyString
  | String c rest =>
      String (if Ascii.eqb c " " then "_"%char else c) (underscored rest)
  end.

Fixpoint countSpaces (name : string) : nat :=
  match name with
  | EmptyString => O
  | String c rest => ((if Ascii.eqb c " " then 1 else 0) + countSpaces rest)%nat
  end.

(** The blend modes of the rendering library (PIXI.BLEND_MODES), as its
    documentation lists them. *)
Definition PIXI_BLEND_MODES : gmap string Z :=
  list_to_map
    [ ("NORMAL", 0); ("ADD", 1); ("MULTIPLY", 2); ("SCREEN", 3);
      ("OVERLAY", 4); ("DARKEN", 5); ("LIGHTEN", 6); ("COLOR_DODGE", 7);
      ("COLOR_BURN", 8); ("HARD_LIGHT", 9); ("SOFT_LIGHT", 10);
      ("DIFFERENCE", 11); ("EXCLUSION", 12); ("HUE", 13);
      ("SATURATION", 14); ("COLOR", 15); ("LUMINOSITY", 16) ].

(** A binary64 value that is not below zero: NaN, [+0], or positive. *)
Definition not_negative (v : spec_float) : Prop :=
  match v with
  | S754_zero sg | S754_infinity sg | S754_finite sg _ _ => sg = false
  | S754_nan => True
  end.

End Spec.

(* ===================================================================== *)
(** * A small world to run the strategy in *)
(* ===================================================================== *)

(** A generator that counts its draws and always answers 0.25, a chain that
    is a single vertex (sampling gives the vertex), and a store with one
    emitter at address 1, one particle at address 7 whose position is the
    Point at address 3, and [Temp.point] at address 2. The emitters have
    rotation 0, so [Math.sin] and [Math.cos] are never reached; [trig]
    stands in for them. *)
Module World.

Definition Math_random (g : nat) : float * nat := (0.25%float, S g).

Definition getRandomPoint (chain out : Point.t) (g : nat) : Point.t * nat :=
  (chain, g).

Definition trig (angle : float) : float := angle.

Definition fixedEmitter : Emitter.t Point.t :=
  Emitter.mk (Point.mk 10 20) 0 45 45 "polygonalChain" (Point.mk 3 4).

Definition rangeEmitter : Emitter.t Point.t :=
  Emitter.mk (Point.mk 10 20) 0 0 8 "polygonalChain" (Point.mk 3 4).

Definition particle : Particle.t := Particle.mk 1 0 3.

Definition store (em : Emitter.t Point.t) : SpawnPolygonStrategy.Store nat Point.t :=
  SpawnPolygonStrategy.mkStore
    {[ 1%positive := em ]}
    {[ 7%positive := particle ]}
    {[ 2%positive := Point.mk 0 0; 3%positive := Point.mk 0 0 ]}
    2%positive O.

Definition spawn :=
  SpawnPolygonStrategy.spawn trig trig Math_random getRandomPoint.

(** An emitter whose rotation is NaN. *)
Definition nanEmitter : Emitter.t Point.t :=
  Emitter.mk (Point.mk 10 20) nan 45 45 "polygonalChain" (Point.mk 3 4).

(** A second particle of the same emitter, at address 8, whose position is
    the Point at address 4, and the store that holds both particles. *)
Definition secondParticle : Particle.t := Particle.mk 1 0 4.

Definition crowd (em : Emitter.t Point.t) : SpawnPolygonStrategy.Store nat Point.t :=
  SpawnPolygonStrategy.mkStore
    {[ 1%positive := em ]}
    {[ 7%positive := particle; 8%positive := secondParticle ]}
    {[ 2%positive := Point.mk 0 0; 3%positive := Point.mk 0 0;
       4%positive := Point.mk 0 0 ]}
    2%positive O.

(** The chain built from a list of vertices is its first vertex. *)
Definition newPolygonalChain (vertices : list Point.t) : Point.t :=
  default (Point.mk 0 0) (head vertices).

Definition parseConfig :=
  @SpawnPolygonStrategy.parseConfig nat Point.t (list Point.t) newPolygonalChain.

End World.

(* ===================================================================== *)
(** * Properties *)
(* ===================================================================== *)

Import ParticleUtils.

(** ** Binary64 rounding of exact values *)

(** The number of binary digits of a mantissa, and mantissas shifted left. *)
Lemma digits2_pos_bounds (p : positive) :
  2 ^ (Z.pos (digits2_pos p) - 1) <= Z.pos p < 2 ^ Z.pos (digits2_pos p).
Proof.
  induction p as [p IH | p IH |]; simpl digits2_pos.
  - rewrite Pos2Z.inj_succ, (Pos2Z.inj_xI p).
    replace (Z.succ (Z.pos (digits2_pos p)) - 1) with (Z.succ (Z.pos (digits2_pos p) - 1)) by lia.
    rewrite !Z.pow_succ_r by lia.
    revert IH. generalize (2 ^ (Z.pos (digits2_pos p) - 1)) (2 ^ Z.pos (digits2_pos p)). lia.
  - rewrite Pos2Z.inj_succ, (Pos2Z.inj_xO p).
    replace (Z.succ (Z.pos (digits2_pos p)) - 1) with (Z.succ (Z.pos (digits2_pos p) - 1)) by lia.
    rewrite !Z.pow_succ_r by lia.
    revert IH. generalize (2 ^ (Z.pos (digits2_pos p) - 1)) (2 ^ Z.pos (digits2_pos p)). lia.
  - simpl. lia.
Qed.

Lemma digits2_pos_shift (k p : positive) :
  digits2_pos (Pos.iter xO p k) = (digits2_pos p + k)%positive.
Proof.
  induction k as [| k IH] using Pos.peano_ind.
  - simpl. lia.
  - rewrite Pos.iter_succ. simpl. rewrite IH. lia.
Qed.

Lemma Zpos_shift (k p : positive) :
  Z.pos (Pos.iter xO p k) = Z.pos p * 2 ^ Z.pos k.
Proof.
  induction k as [| k IH] using Pos.peano_ind.
  - simpl. lia.
  - rewrite Pos.iter_succ, Pos2Z.inj_xO, IH, Pos2Z.inj_succ, Z.pow_succ_r by lia. lia.
Qed.

Lemma iter_pos_eq {A} (f : A -> A) (k : positive) (a : A) :
  SpecFloat.iter_pos f k a = Pos.iter f a k.
Proof.
  revert a. induction k as [k IH | k IH |]; intros a; simpl.
  - rewrite !IH, !Pos.iter_swap. reflexivity.
  - rewrite !IH. reflexivity.
  - reflexivity.
Qed.

Lemma shr_exact (k p : positive) :
  SpecFloat.iter_pos shr_1 k (Build_shr_record (Z.pos (Pos.iter xO p k)) false false)
  = Build_shr_record (Z.pos p) false false.
Proof.
  rewrite iter_pos_eq.
  induction k as [| k IH] using Pos.peano_ind.
  - reflexivity.
  - rewrite Pos.iter_succ_r. rewrite Pos.iter_succ. simpl shr_1. exact IH.
Qed.

(** Rounding a canonical mantissa changes nothing. *)
Lemma binary_round_aux_canonical (sg : bool) (m : positive) (ex : Z) :
  bounded prec emax m ex = true ->
  binary_round_aux prec emax sg (Z.pos m) ex loc_Exact = S754_finite sg m ex.
Proof.
  unfold bounded, canonical_mantissa. intros H.
  apply andb_true_iff in H as [Hc Hb]. apply Z.eqb_eq in Hc.
  unfold binary_round_aux, shr_fexp. simpl Zdigits2. rewrite Hc, Z.sub_diag.
  simpl. rewrite Hc, Z.sub_diag. simpl. rewrite Hb. reflexivity.
Qed.

(** Rounding a canonical mantissa that was shifted left by [k] bits gives
    the mantissa back. *)
Lemma binary_round_aux_shifted (sg : bool) (m k : positive) (ex : Z) :
  bounded prec emax m ex = true ->
  binary_round_aux prec emax sg (Z.pos (Pos.iter xO m k)) (ex - Z.pos k) loc_Exact
  = S754_finite sg m ex.
Proof.
  unfold bounded, canonical_mantissa. intros H.
  apply andb_true_iff in H as [Hc Hb]. apply Z.eqb_eq in Hc.
  unfold binary_round_aux, shr_fexp. simpl Zdigits2.
  rewrite digits2_pos_shift.
  replace (Z.pos (digits2_pos m + k) + (ex - Z.pos k)) with (Z.pos (digits2_pos m) + ex) by lia.
  rewrite Hc. replace (ex - (ex - Z.pos k)) with (Z.pos k) by lia.
  unfold shr_record_of_loc at 1. unfold shr at 1. rewrite shr_exact.
  replace (ex - Z.pos k + Z.pos k) with ex by lia.
  simpl. rewrite Hc, Z.sub_diag. simpl. rewrite Hb. reflexivity.
Qed.

(** ** Integers as Numbers *)

Lemma Prim2SF_one : Prim2SF 1 = S754_finite false 4503599627370496 (-52).
Proof. vm_compute. reflexivity. Qed.

Lemma mul_one_r (v : float) : (v * 1)%float = v.
Proof.
  apply Prim2SF_inj. rewrite mul_spec, Prim2SF_one.
  pose proof (Prim2SF_valid v) as Hv.
  destruct (Prim2SF v) as [sg | sg | | sg m ex];
    [destruct sg; reflexivity | destruct sg; reflexivity | reflexivity |].
  unfold SF64mul, SFmul. rewrite xorb_false_r, Pos.mul_comm.
  change (4503599627370496 * m)%positive with (Pos.iter xO m 52).
  change (ex + -52) with (ex - Z.pos 52).
  apply binary_round_aux_shifted. exact Hv.
Qed.

Lemma Prim2SF_of_pos (p : positive) :
  Z.pos p < 2 ^ 53 ->
  exists m ex,
    Prim2SF (of_uint63 (Uint63.of_Z (Z.pos p))) = S754_finite false m ex
    /\ Z.shiftl (Z.pos m) ex = Z.pos p
    /\ ex <= 0 /\ Z.pos m = Z.pos p * 2 ^ (- ex).
Proof.
  intros Hp.
  rewrite of_uint63_spec, Uint63.of_Z_spec.
  rewrite Z.mod_small by (change Uint63.wB with (2 ^ 63); lia).
  unfold binary_normalize, binary_round.
  pose proof (digits2_pos_bounds p) as Hd.
  assert (Hd53 : Z.pos (digits2_pos p) <= 53).
  { destruct (Z.le_gt_cases (Z.pos (digits2_pos p)) 53) as [H | H]; [exact H |].
    exfalso. assert (2 ^ 53 <= 2 ^ (Z.pos (digits2_pos p) - 1))
      by (apply Z.pow_le_mono_r; lia). lia. }
  unfold fexp, emin, prec, emax. rewrite Z.add_0_r.
  rewrite Z.max_l by lia.
  unfold shl_align. rewrite Z.sub_0_r.
  destruct (Z.pos (digits2_pos p) - 53) as [| q | q] eqn:Hk; [| lia |].
  - exists p, 0. split; [| split; [reflexivity | simpl; lia]].
    apply binary_round_aux_canonical.
    unfold bounded, canonical_mantissa, fexp, emin, prec, emax.
    apply andb_true_iff. split; [apply Z.eqb_eq | apply Z.leb_le]; lia.
  - exists (Pos.iter xO p q), (Z.neg q). split.
    + apply binary_round_aux_canonical.
      unfold bounded, canonical_mantissa, fexp, emin, prec, emax.
      rewrite digits2_pos_shift.
      apply andb_true_iff. split; [apply Z.eqb_eq | apply Z.leb_le]; lia.
    + rewrite Zpos_shift.
      change (Z.neg q) with (- Z.pos q). rewrite Z.opp_involutive.
      split; [| split; [lia | reflexivity]].
      rewrite Z.shiftl_opp_r, Z.shiftr_div_pow2 by lia.
      apply Z.div_mul. lia.
Qed.

Lemma truncZ_numOfZ (z : Z) :
  - 2 ^ 53 < z < 2 ^ 53 -> JS.truncZ (JS.numOfZ z) = z.
Proof.
  intros Hz. unfold JS.numOfZ, JS.truncZ.
  destruct (Z.ltb_spec (Z.abs z) (2 ^ 63)) as [_ | Hbig]; [| lia].
  destruct z as [| p | p].
  - reflexivity.
  - change (Z.pos p <? 0) with false. cbv iota.
    destruct (Prim2SF_of_pos p) as (m & ex & -> & Hv & _); [lia |]. exact Hv.
  - change (Z.neg p <? 0) with true. cbv iota.
    change (- Z.neg p) with (Z.pos p). rewrite opp_spec.
    destruct (Prim2SF_of_pos p) as (m & ex & -> & Hv & _); [lia |].
    simpl. rewrite Hv. reflexivity.
Qed.

Lemma wrap32_small (z : Z) : - 2 ^ 31 <= z < 2 ^ 31 -> JS.wrap32 z = z.
Proof. intros Hz. unfold JS.wrap32. rewrite Z.mod_small; lia. Qed.

Lemma ToInt32_numOfZ (z : Z) :
  - 2 ^ 31 <= z < 2 ^ 31 -> JS.ToInt32 (JS.numOfZ z) = z.
Proof.
  intros Hz. unfold JS.ToInt32. rewrite truncZ_numOfZ by lia.
  apply wrap32_small. exact Hz.
Qed.

(** ** Products of an array length and a time in [0, 1] *)

Lemma shr_1_m (r : shr_record) :
  0 <= shr_m r -> shr_m (shr_1 r) = shr_m r / 2.
Proof.
  destruct r as [m rb sb]. cbn [shr_m]. intros Hm.
  rewrite <- Z.div2_div.
  destruct m as [| [p | p |] | p]; try reflexivity. lia.
Qed.

Lemma shr_m_iter (k : positive) (r : shr_record) :
  0 <= shr_m r ->
  shr_m (SpecFloat.iter_pos shr_1 k r) = shr_m r / 2 ^ Z.pos k.
Proof.
  intros Hm. rewrite iter_pos_eq.
  induction k as [| k IH] using Pos.peano_ind.
  - cbn [Pos.iter]. rewrite shr_1_m by exact Hm. reflexivity.
  - rewrite Pos.iter_succ, shr_1_m; rewrite IH.
    + rewrite Z.div_div by lia. rewrite Pos2Z.inj_succ, Z.pow_succ_r by lia.
      f_equal. lia.
    + apply Z.div_pos; lia.
Qed.

Lemma shr_exact_record (m e n : Z) :
  0 <= m ->
  shr_m (fst (shr (Build_shr_record m false false) e n)) = m / 2 ^ Z.max n 0
  /\ snd (shr (Build_shr_record m false false) e n) = e + Z.max n 0.
Proof.
  intros Hm. destruct n as [| k | k]; cbn [shr fst snd].
  - cbn. rewrite Z.div_1_r. lia.
  - rewrite shr_m_iter by exact Hm. cbn [shr_m]. rewrite Z.max_l by lia. lia.
  - cbn [shr_m]. rewrite Z.max_r by lia. cbn. rewrite Z.div_1_r. lia.
Qed.

Lemma round_nearest_even_bounds (m : Z) (l : location) :
  m <= round_nearest_even m l <= m + 1.
Proof. destruct l as [| []]; cbn; try lia. destruct (Z.even m); lia. Qed.

Lemma Zdigits2_bound (m b : Z) :
  0 <= m -> 0 <= b -> m < 2 ^ b -> Zdigits2 m <= b.
Proof.
  intros Hm Hb Hlt. destruct m as [| p | p]; [cbn; lia | | lia].
  cbn [Zdigits2]. pose proof (digits2_pos_bounds p) as [Hlo _].
  destruct (Z.le_gt_cases (Z.pos (digits2_pos p)) b) as [H | H]; [exact H |].
  exfalso. assert (2 ^ b <= 2 ^ (Z.pos (digits2_pos p) - 1))
    by (apply Z.pow_le_mono_r; lia). lia.
Qed.

Lemma fexp_binary64 (x : Z) : fexp prec emax x = Z.max (x - 53) (-1074).
Proof. reflexivity. Qed.

(** A positive exact value [M * 2^e] strictly below an integer [N] rounds
    to a binary64 value that is zero or positive, finite, and at most [N]. *)
Lemma binary_round_aux_below (M : positive) (e N : Z) :
  e <= 0 -> 0 < N < 2 ^ 32 -> Z.pos M < N * 2 ^ (- e) ->
  exists k,
    Spec.floorSF (binary_round_aux prec emax false (Z.pos M) e loc_Exact) = Some k
    /\ 0 <= k <= N.
Proof.
  intros He HN HM.
  unfold binary_round_aux, shr_fexp. cbn [shr_record_of_loc].
  set (n1 := fexp prec emax (Zdigits2 (Z.pos M) + e) - e).
  destruct (shr_exact_record (Z.pos M) e n1) as [Hm1 He1]; [lia |].
  destruct (shr (Build_shr_record (Z.pos M) false false) e n1) as [r1 e1].
  cbn [fst snd] in Hm1, He1.
  set (m2 := round_nearest_even (shr_m r1) (loc_of_shr_record r1)).
  pose proof (round_nearest_even_bounds (shr_m r1) (loc_of_shr_record r1)) as Hr.
  fold m2 in Hr.
  set (n2 := fexp prec emax (Zdigits2 m2 + e1) - e1).
  assert (Hpow32 : forall x, x <= 0 -> N * 2 ^ (- x) < 2 ^ (32 - x)).
  { intros x Hx. replace (32 - x) with (32 + - x) by lia.
    rewrite Z.pow_add_r by lia. apply Z.mul_lt_mono_pos_r; [| lia].
    apply Z.pow_pos_nonneg; lia. }
  assert (Hd1 : Zdigits2 (Z.pos M) + e <= 32).
  { pose proof (Hpow32 e He).
    pose proof (Zdigits2_bound (Z.pos M) (32 - e)). lia. }
  assert (He1' : e1 <= 0 /\ - e = - e1 + Z.max n1 0 /\ 0 <= Z.max n1 0).
  { unfold n1 in *. rewrite fexp_binary64 in *. lia. }
  destruct He1' as (He1n & Hsplit1 & Ha1).
  assert (Hm1' : 0 <= shr_m r1 < N * 2 ^ (- e1)).
  { rewrite Hm1. split; [apply Z.div_pos; [lia | apply Z.pow_pos_nonneg; lia] |].
    apply Z.div_lt_upper_bound; [apply Z.pow_pos_nonneg; lia |].
    rewrite Hsplit1, Z.pow_add_r in HM by lia. lia. }
  assert (Hm2 : 0 <= m2 <= N * 2 ^ (- e1)) by lia.
  assert (Hd2 : Zdigits2 m2 + e1 <= 32).
  { pose proof (Hpow32 e1 He1n).
    pose proof (Zdigits2_bound m2 (32 - e1)). lia. }
  destruct (shr_exact_record m2 e1 n2) as [Hm3 He3]; [lia |].
  destruct (shr (Build_shr_record m2 false false) e1 n2) as [r3 e3].
  cbn [fst snd] in Hm3, He3.
  assert (He3' : e3 <= 0 /\ - e1 = - e3 + Z.max n2 0 /\ 0 <= Z.max n2 0).
  { unfold n2 in *. rewrite fexp_binary64 in *. lia. }
  destruct He3' as (He3n & Hsplit3 & Ha2).
  assert (Hm3' : 0 <= shr_m r3 <= N * 2 ^ (- e3)).
  { rewrite Hm3. split; [apply Z.div_pos; [lia | apply Z.pow_pos_nonneg; lia] |].
    apply Z.div_le_upper_bound; [apply Z.pow_pos_nonneg; lia |].
    rewrite Hsplit3, Z.pow_add_r in Hm2 by lia. lia. }
  destruct (shr_m r3) as [| m | m].
  - exists 0. split; [reflexivity | lia].
  - destruct (Z.leb_spec e3 (emax - prec)) as [_ | Hbig];
      [| unfold emax, prec in Hbig; lia].
    cbn [Spec.floorSF]. eexists. split; [reflexivity |].
    replace e3 with (- - e3) by lia.
    rewrite Z.shiftl_opp_r, Z.shiftr_div_pow2 by lia. split.
    + apply Z.div_pos; [lia | apply Z.pow_pos_nonneg; lia].
    + apply Z.div_le_upper_bound; [apply Z.pow_pos_nonneg; lia | lia].
  - lia.
Qed.

Lemma Prim2SF_numOfZ_pos (n : Z) :
  0 < n < 2 ^ 53 ->
  exists m ex,
    Prim2SF (JS.numOfZ n) = S754_finite false m ex
    /\ Z.shiftl (Z.pos m) ex = n /\ ex <= 0 /\ Z.pos m = n * 2 ^ (- ex).
Proof.
  intros Hn. unfold JS.numOfZ.
  destruct (Z.ltb_spec (Z.abs n) (2 ^ 63)) as [_ | Hbig]; [| lia].
  destruct (Z.ltb_spec n 0) as [Hneg | _]; [lia |].
  destruct n as [| p | p]; try lia.
  apply Prim2SF_of_pos. lia.
Qed.

(** A finite binary64 value that is at most 1 and not 1 has a mantissa below
    [2^(-ex)]. *)
Lemma below_one_mantissa (m : positive) (ex : Z) :
  bounded prec emax m ex = true ->
  SFleb (S754_finite false m ex) (S754_finite false 4503599627370496 (-52)) = true ->
  (m = 4503599627370496%positive /\ ex = -52)
  \/ (ex <= -52 /\ Z.pos m < 2 ^ (- ex)).
Proof.
  unfold bounded, canonical_mantissa. intros Hv Hle.
  apply andb_true_iff in Hv as [Hc _]. apply Z.eqb_eq in Hc.
  rewrite fexp_binary64 in Hc.
  pose proof (digits2_pos_bounds m) as [_ Hhi].
  assert (Hm53 : Z.pos m < 2 ^ 53).
  { eapply Z.lt_le_trans; [exact Hhi |]. apply Z.pow_le_mono_r; lia. }
  unfold SFleb in Hle. cbn [SFcompare] in Hle.
  rewrite Pos.compare_cont_spec in Hle. cbn [Pos.switch_Eq] in Hle.
  destruct (Z.compare_spec ex (-52)) as [-> | Hlt | Hgt].
  - rewrite Pos2Z.inj_compare in Hle.
    destruct (Z.compare_spec (Z.pos m) (Z.pos 4503599627370496)) as [Heq | Hlt | Hgt];
      [left; split; congruence | | discriminate Hle].
    right. split; [lia |]. exact Hlt.
  - right. split; [lia |].
    eapply Z.lt_le_trans; [exact Hm53 |]. apply Z.pow_le_mono_r; lia.
  - discriminate Hle.
Qed.

(** For an array length [n] and a time in [0, 1], the product [n * time]
    is finite and its floor lies in [0 .. n]. *)
Lemma mul_unit_interval_floor (n : Z) (time : float) :
  0 < n < 2 ^ 32 ->
  (0 <=? time)%float = true -> (time <=? 1)%float = true ->
  exists k, Spec.floorZ (JS.numOfZ n * time)%float = Some k /\ 0 <= k <= n.
Proof.
  intros Hn H0 H1.
  destruct (Prim2SF_numOfZ_pos n) as (mq & eq & Hq & Hfl & Heq & Hmq); [lia |].
  rewrite leb_spec in H0, H1. rewrite Prim2SF_one in H1.
  change (Prim2SF 0) with (S754_zero false) in H0.
  pose proof (Prim2SF_valid time) as Hv.
  destruct (Prim2SF time) as [sg | sg | | sg mt et] eqn:Ht.
  - exists 0. unfold Spec.floorZ. rewrite mul_spec, Hq, Ht.
    split; [reflexivity | lia].
  - destruct sg; discriminate.
  - discriminate.
  - destruct sg; [discriminate H0 |].
    destruct (below_one_mantissa mt et Hv H1) as [[-> ->] | [Het Hmt]].
    + assert (time = 1%float) as -> by (apply Prim2SF_inj; rewrite Ht; reflexivity).
      exists n. rewrite mul_one_r. unfold Spec.floorZ. rewrite Hq.
      cbn [Spec.floorSF]. rewrite Hfl. split; [reflexivity | lia].
    + unfold Spec.floorZ. rewrite mul_spec, Hq, Ht.
      unfold SF64mul, SFmul. cbn [xorb].
      apply binary_round_aux_below; [lia | lia |].
      rewrite Pos2Z.inj_mul, Hmq.
      replace (- (eq + et)) with (- eq + - et) by lia.
      rewrite Z.pow_add_r by lia.
      assert (0 < n * 2 ^ (- eq)) by (apply Z.mul_pos_pos; [lia | apply Z.pow_pos_nonneg; lia]).
      rewrite Z.mul_assoc.
      apply Z.mul_lt_mono_pos_l; [exact H | exact Hmt].
Qed.

(** ** Comparisons, infinities, array reads, segment selection *)

Lemma eqb_zero_inv (v : float) :
  (v =? 0)%float = true -> v = 0%float \/ v = (-0)%float.
Proof.
  rewrite FloatAxioms.eqb_spec. rewrite <- (SF2Prim_Prim2SF v) at 2 3.
  destruct (Prim2SF v) as [sg | sg | | sg m ex].
  - intros _. destruct sg; [right | left]; reflexivity.
  - destruct sg; discriminate.
  - discriminate.
  - destruct sg; discriminate.
Qed.

Lemma SF2Prim_not_finite (v : float) :
  (exists sg, Prim2SF v = S754_infinity sg) \/ Prim2SF v = S754_nan ->
  is_finite v = false.
Proof.
  intros H. rewrite <- (SF2Prim_Prim2SF v).
  destruct H as [[sg ->] | ->]; [destruct sg |]; reflexivity.
Qed.

Lemma mul_infinity_not_finite (v w : float) :
  w = infinity \/ w = neg_infinity -> is_finite (v * w) = false.
Proof.
  intros Hw. apply SF2Prim_not_finite. rewrite mul_spec.
  destruct Hw as [-> | ->].
  - change (Prim2SF infinity) with (S754_infinity false).
    destruct (Prim2SF v) as [sg | sg | | sg m ex]; simpl; eauto.
  - change (Prim2SF neg_infinity) with (S754_infinity true).
    destruct (Prim2SF v) as [sg | sg | | sg m ex]; simpl; eauto.
Qed.

Lemma mul_reciprocal_of_zero (v z : float) :
  (z =? 0)%float = true -> (v * (1 / z))%float = (v / z)%float.
Proof.
  intros Hz. destruct (eqb_zero_inv z Hz) as [-> | ->].
  - change (1 / 0)%float with infinity.
    apply Prim2SF_inj. rewrite mul_spec, div_spec.
    change (Prim2SF infinity) with (S754_infinity false).
    change (Prim2SF 0) with (S754_zero false).
    destruct (Prim2SF v) as [sg | sg | | sg m ex]; reflexivity.
  - change (1 / -0)%float with neg_infinity.
    apply Prim2SF_inj. rewrite mul_spec, div_spec.
    change (Prim2SF neg_infinity) with (S754_infinity true).
    change (Prim2SF (-0)) with (S754_zero true).
    destruct (Prim2SF v) as [sg | sg | | sg m ex]; reflexivity.
Qed.

Lemma ToInt32_floor (v : float) (k : Z) :
  Spec.floorZ v = Some k -> 0 <= k < 2 ^ 31 -> JS.ToInt32 v = k.
Proof.
  unfold Spec.floorZ, Spec.floorSF, JS.ToInt32, JS.truncZ.
  destruct (Prim2SF v) as [sg | sg | | sg m ex]; try discriminate.
  - intros [= <-] _. reflexivity.
  - intros [= <-] Hk. destruct sg.
    + exfalso. apply proj1 in Hk. apply Z.shiftl_nonneg in Hk. lia.
    + apply wrap32_small. lia.
Qed.

Lemma arrayGet_inside {A} (arr : list A) (i : Z) :
  0 <= i < Z.of_nat (List.length arr) -> JS.arrayGet arr i = arr !! Z.to_nat i
  /\ is_Some (arr !! Z.to_nat i).
Proof.
  intros Hi. unfold JS.arrayGet.
  destruct (Z.ltb_spec i 0) as [? | _]; [lia |]. split; [reflexivity |].
  apply lookup_lt_is_Some. lia.
Qed.

Lemma arrayGet_outside {A} (arr : list A) (i : Z) :
  ~ (0 <= i < Z.of_nat (List.length arr)) -> JS.arrayGet arr i = None.
Proof.
  intros Hi. unfold JS.arrayGet.
  destruct (Z.ltb_spec i 0) as [? | ?]; [reflexivity |].
  apply lookup_ge_None. lia.
Qed.

Lemma arrayGet_last {A} (arr : list A) :
  JS.arrayGet arr (Z.of_nat (List.length arr) - 1) = last arr.
Proof.
  unfold JS.arrayGet. rewrite last_lookup.
  destruct arr as [| a arr]; [reflexivity |].
  destruct (Z.ltb_spec (Z.of_nat (List.length (a :: arr)) - 1) 0) as [H | _].
  - simpl List.length in H. lia.
  - f_equal. simpl List.length. lia.
Qed.

Lemma easeIndex_one (qty : nat) :
  Z.of_nat qty < 2 ^ 32 ->
  ParticleUtils.easeIndex qty 1 = JS.wrap32 (Z.of_nat qty).
Proof.
  intros Hq. unfold ParticleUtils.easeIndex, JS.ToInt32.
  rewrite mul_one_r, truncZ_numOfZ by lia. reflexivity.
Qed.


(** C4. For a non-empty segment list (shorter than 2^31: the quick floor
    [| 0] is a 32-bit operation) the ease function reads the segment at
    index [i = (qty * time) | 0] and returns the value of that segment's
    curve, [s + t * (2 * (1 - t) * (cp - s) + t * (e - s))], at the
    position [t = (time - i * (1 / qty)) * qty]. For a time in [0, 1] the
    index is floor(qty * time) and lies in [0 .. qty]: the value returned
    is that of the segment at this index when the index is below [qty],
    and that of the last segment when it is [qty]. When [i] lies inside
    the array the segment at [i] is used; when it does not, the last
    segment is used. At time 1 the index is [qty], one past the array, and
    the value returned is that of the last segment. A segment is always
    found and the function returns a value. *)
Theorem generateEase_segment_selection (segments : list Segment.t) (time : float) :
  segments <> [] ->
  Z.of_nat (List.length segments) < 2 ^ 31 ->
  let qty := List.length segments in
  let qtyN := JS.numOfZ (Z.of_nat qty) in
  let i := easeIndex qty time in
  let position (time : float) (i : Z) : float :=
    ((time - JS.numOfZ i * (1 / qtyN)) * qtyN)%float in
  let value (sg : Segment.t) (t : float) : float :=
    (Segment.s sg
     + t * (2 * (1 - t) * (Segment.cp sg - Segment.s sg)
            + t * (Segment.e sg - Segment.s sg)))%float in
  ((0 <=? time)%float = true -> (time <=? 1)%float = true ->
   exists k : Z,
     Spec.floorZ (JS.numOfZ (Z.of_nat qty) * time)%float = Some k
     /\ 0 <= k <= Z.of_nat qty /\ i = k)
  /\ (0 <= i < Z.of_nat qty ->
      easeSegment segments i = segments !! Z.to_nat i)
  /\ (~ (0 <= i < Z.of_nat qty) -> easeSegment segments i = last segments)
  /\ easeIndex qty 1 = Z.of_nat qty
  /\ easeSegment segments (easeIndex qty 1) = last segments
  /\ (exists sg v,
        easeSegment segments i = Some sg
        /\ generateEase segments time = Some v
        /\ v = value sg (position time i))
  /\ ((0 <=? time)%float = true -> (time <=? 1)%float = true ->
      exists (k : Z) (sg : Segment.t),
        Spec.floorZ (qtyN * time)%float = Some k
        /\ (if k <? Z.of_nat qty then segments !! Z.to_nat k else last segments)
           = Some sg
        /\ generateEase segments time = Some (value sg (position time k)))
  /\ (exists sg,
        last segments = Some sg
        /\ generateEase segments 1%float
           = Some (value sg (position 1%float (Z.of_nat qty)))).
Proof.
  intros Hne Hlen qty qtyN i position value.
  assert (Hpos : 0 < Z.of_nat qty).
  { unfold qty. destruct segments; [congruence | cbn [List.length]; lia]. }
  assert (Hlast : is_Some (last segments)).
  { destruct segments as [| a l]; [congruence |]. rewrite last_is_Some. discriminate. }
  assert (Hin : forall j, 0 <= j < Z.of_nat qty ->
                  easeSegment segments j = segments !! Z.to_nat j).
  { intros j Hj. unfold easeSegment.
    destruct (arrayGet_inside segments j Hj) as [-> [sg ->]]. reflexivity. }
  assert (Hout : forall j, ~ (0 <= j < Z.of_nat qty) -> easeSegment segments j = last segments).
  { intros j Hj. unfold easeSegment.
    rewrite (arrayGet_outside segments j Hj). apply arrayGet_last. }
  assert (Hsome : is_Some (easeSegment segments i)).
  { destruct (decide (0 <= i < Z.of_nat qty)) as [Hi | Hi].
    - rewrite (Hin i Hi). apply lookup_lt_is_Some. unfold qty in Hi. lia.
    - rewrite (Hout i Hi). exact Hlast. }
  assert (Hone : easeIndex qty 1 = Z.of_nat qty).
  { unfold qty. rewrite easeIndex_one by lia. apply wrap32_small. lia. }
  assert (Hvalue : forall tm sg,
            easeSegment segments (easeIndex qty tm) = Some sg ->
            generateEase segments tm
            = Some (value sg (position tm (easeIndex qty tm)))).
  { intros tm sg Hsg. unfold generateEase. fold qty. rewrite Hsg. reflexivity. }
  assert (Hfloor : (0 <=? time)%float = true -> (time <=? 1)%float = true ->
                   exists k : Z,
                     Spec.floorZ (JS.numOfZ (Z.of_nat qty) * time)%float = Some k
                     /\ 0 <= k <= Z.of_nat qty /\ i = k).
  { intros H0 H1.
    destruct (mul_unit_interval_floor (Z.of_nat qty) time) as (k & Hk & Hrange);
      [unfold qty; lia | exact H0 | exact H1 |].
    exists k. split; [exact Hk |]. split; [exact Hrange |].
    apply ToInt32_floor; [exact Hk | unfold qty in Hrange; lia]. }
  split; [exact Hfloor |].
  split; [apply Hin |]. split; [apply Hout |]. split; [exact Hone |].
  split; [rewrite Hone; apply Hout; lia |].
  split; [| split].
  - destruct Hsome as [sg Hsg]. exists sg. eexists.
    split; [exact Hsg |]. split; [apply Hvalue; exact Hsg | reflexivity].
  - intros H0 H1. destruct (Hfloor H0 H1) as (k & Hk & Hrange & Hik).
    destruct Hsome as [sg Hsg]. exists k, sg. split; [exact Hk |].
    split.
    + rewrite <- Hik. destruct (Z.ltb_spec i (Z.of_nat qty)) as [Hlt | Hge].
      * rewrite <- Hin by lia. exact Hsg.
      * rewrite <- (Hout i) by lia. exact Hsg.
    + rewrite <- Hik. apply Hvalue. exact Hsg.
  - destruct Hlast as [sg Hsg]. exists sg. split; [exact Hsg |].
    rewrite <- Hone. apply Hvalue. rewrite Hone, Hout by lia. exact Hsg.
Qed.

Lemma generateEase_segment_selection_witness :
  easeSegment [Segment.mk 0 0.25 0.5; Segment.mk 0.5 0.75 1] (easeIndex 2 1)
  = Some (Segment.mk 0.5 0.75 1)
  /\ generateEase [Segment.mk 0 0.25 0.5; Segment.mk 0.5 0.75 1] 1%float
     = Some 0.5%float.
Proof.
  pose proof (generateEase_segment_selection
                [Segment.mk 0 0.25 0.5; Segment.mk 0.5 0.75 1] 1%float)
    as H.
  destruct H as (_ & _ & _ & _ & Hlast & _ & _ & (sg & Hsg & Hvalue)).
  - discriminate.
  - vm_compute. reflexivity.
  - split; [exact Hlast |].
    rewrite Hvalue. injection Hsg as <-. vm_compute. reflexivity.
Defined.

(** ** The single-segment ease, colour packing, rotation, normalisation *)

(** C1. The ease built from the single segment [{s:0, cp:0.5, e:1}]
    returns 0 at time 0 and 0.5 at time 0.5. At time 1 it returns 0, the
    start value of the segment, and not 1: the index is 1, one past the
    array, so [t] is computed as 0 while the segment read is the last one. *)
Theorem generateEase_single_segment :
  let ease := generateEase [Segment.mk 0 0.5 1] in
  ease 0%float = Some 0%float
  /\ ease 0.5%float = Some 0.5%float
  /\ ease 1%float = Some 0%float
  /\ ease 1%float <> Some 1%float
  /\ (forall sg : Segment.t,
        easeIndex 1 1 = 1
        /\ easeSegment [sg] (easeIndex 1 1) = Some sg
        /\ generateEase [sg] 1%float
           = Some (Segment.s sg
                   + 0 * (2 * (1 - 0) * (Segment.cp sg - Segment.s sg)
                          + 0 * (Segment.e sg - Segment.s sg)))%float).
Proof.
  cbv zeta. split; [vm_compute; reflexivity |].
  split; [vm_compute; reflexivity |].
  split; [vm_compute; reflexivity |].
  split; [vm_compute; discriminate |].
  intros sg. repeat split.
Qed.

(** C7. For integer channels in 0..255, [combineRGBComponents(r, g, b)] is
    the Number [(r << 16) | (g << 8) | b]; [combineRGBComponents(255, 128,
    64)] is [0xFF8040]. *)
Theorem combineRGBComponents_packs (r g b : Z) :
  0 <= r <= 255 -> 0 <= g <= 255 -> 0 <= b <= 255 ->
  combineRGBComponents (JS.numOfZ r) (JS.numOfZ g) (JS.numOfZ b)
  = JS.numOfZ (Z.lor (Z.lor (Z.shiftl r 16) (Z.shiftl g 8)) b)
  /\ JS.ToInt32 (combineRGBComponents (JS.numOfZ r) (JS.numOfZ g) (JS.numOfZ b))
     = Z.lor (Z.lor (Z.shiftl r 16) (Z.shiftl g 8)) b
  /\ combineRGBComponents 255 128 64 = 0xFF8040%float.
Proof.
  intros Hr Hg Hb.
  assert (Heq : combineRGBComponents (JS.numOfZ r) (JS.numOfZ g) (JS.numOfZ b)
                = JS.numOfZ (Z.lor (Z.lor (Z.shiftl r 16) (Z.shiftl g 8)) b)).
  { unfold combineRGBComponents, JS.or32, JS.shl32.
    rewrite !ToInt32_numOfZ by lia.
    change (16 mod 32) with 16. change (8 mod 32) with 8.
    rewrite !Z.shiftl_mul_pow2 by lia.
    rewrite !wrap32_small by lia. reflexivity. }
  split; [exact Heq |]. split; [| vm_compute; reflexivity].
  rewrite Heq. apply ToInt32_numOfZ.
  assert (Hbits : 0 <= Z.lor (Z.lor (Z.shiftl r 16) (Z.shiftl g 8)) b < 2 ^ 24).
  { split.
    - apply Z.lor_nonneg. split; [apply Z.lor_nonneg; split |]; try apply Z.shiftl_nonneg; lia.
    - assert (Hlt : forall a, 0 <= a -> (a < 2 ^ 24 <-> Z.log2 a < 24)).
      { intros a Ha. destruct (Z.eq_dec a 0) as [-> | Hnz]; [simpl; lia |].
        rewrite Z.log2_lt_pow2 by lia. reflexivity. }
      assert (Hr' : 0 <= Z.shiftl r 16 < 2 ^ 24) by (rewrite Z.shiftl_mul_pow2; lia).
      assert (Hg' : 0 <= Z.shiftl g 8 < 2 ^ 24) by (rewrite Z.shiftl_mul_pow2; lia).
      apply Hlt.
      + apply Z.lor_nonneg. split; [apply Z.lor_nonneg; split |]; lia.
      + rewrite !Z.log2_lor by (try apply Z.lor_nonneg; lia).
        apply Z.max_lub_lt; [apply Z.max_lub_lt |]; apply Hlt; lia. }
  lia.
Qed.

(** C8. [rotatePoint(0, p)] leaves both coordinates of [p] as they are,
    whatever [Math.sin] and [Math.cos] compute: the function returns
    before it calls them. The same holds for the angle [-0]. *)
Theorem rotatePoint_zero_noop (Math_sin Math_cos : float -> float) (p : Point.t) :
  rotatePoint Math_sin Math_cos 0 p = p
  /\ rotatePoint Math_sin Math_cos (-0) p = p
  /\ Point.x (rotatePoint Math_sin Math_cos 0 p) = Point.x p
  /\ Point.y (rotatePoint Math_sin Math_cos 0 p) = Point.y p.
Proof.
  unfold rotatePoint. change (JS.truthy 0) with false.
  change (JS.truthy (-0)) with false. cbn [negb].
  repeat split.
Qed.

Lemma mul_reciprocal_not_finite (v z : float) :
  z = infinity \/ z = nan -> (v * (1 / z))%float = (v / z)%float.
Proof.
  intros [-> | ->].
  - change (1 / infinity)%float with 0%float.
    apply Prim2SF_inj. rewrite mul_spec, div_spec.
    change (Prim2SF infinity) with (S754_infinity false).
    change (Prim2SF 0) with (S754_zero false).
    destruct (Prim2SF v) as [sg | sg | | sg m ex]; reflexivity.
  - change (1 / nan)%float with nan.
    apply Prim2SF_inj. rewrite mul_spec, div_spec.
    change (Prim2SF nan) with S754_nan.
    destruct (Prim2SF v) as [sg | sg | | sg m ex]; reflexivity.
Qed.

(** C9. [normalize] has no guard. For every point it multiplies both
    coordinates by [1 / length(point)], the length being measured once,
    before either coordinate is written: it is [scaleBy] with that
    reciprocal. This is how it divides by the length. When the length is
    zero, infinite or NaN the products are the quotients [x / length] and
    [y / length] bit for bit, and when the length is zero both results
    are not finite (NaN or an infinity); nothing is raised. For other
    lengths the reciprocal is rounded before it is used, so a product can
    differ from the rounded quotient in its last bit: [(3, 4)] has length
    5 and becomes [(0.6000000000000001, 0.8)], while [3 / 5] is [0.6]. *)
Theorem normalize_zero_length (point : Point.t) :
  let len := ParticleUtils.length point in
  normalize point
  = Point.mk (Point.x point * (1 / len))%float (Point.y point * (1 / len))%float
  /\ normalize point = scaleBy point (1 / len)%float
  /\ ((len =? 0)%float = true \/ len = infinity \/ len = nan ->
      normalize point
      = Point.mk (Point.x point / len)%float (Point.y point / len)%float)
  /\ ((len =? 0)%float = true ->
      is_finite (Point.x (normalize point)) = false
      /\ is_finite (Point.y (normalize point)) = false)
  /\ (normalize (Point.mk 3 4)
      = Point.mk 0x1.3333333333334p-1%float 0x1.999999999999ap-1%float
      /\ ParticleUtils.length (Point.mk 3 4) = 5%float
      /\ (3 / 5)%float = 0x1.3333333333333p-1%float
      /\ (4 / 5)%float = 0x1.999999999999ap-1%float).
Proof.
  intros len. split; [reflexivity |]. split; [reflexivity |].
  split; [| split].
  - intros Hlen. unfold normalize. fold len.
    destruct Hlen as [Hzero | Hnot].
    + rewrite !mul_reciprocal_of_zero by exact Hzero. reflexivity.
    + rewrite !mul_reciprocal_not_finite by exact Hnot. reflexivity.
  - intros Hlen. unfold normalize. fold len. cbn [Point.x Point.y].
    assert (Hinf : (1 / len)%float = infinity \/ (1 / len)%float = neg_infinity).
    { destruct (eqb_zero_inv _ Hlen) as [-> | ->]; [left | right]; reflexivity. }
    split; apply mul_infinity_not_finite; exact Hinf.
  - repeat split; vm_compute; reflexivity.
Qed.

Lemma normalize_zero_length_witness :
  (ParticleUtils.length (Point.mk 0 0) =? 0)%float = true
  /\ is_finite (Point.x (normalize (Point.mk 0 0))) = false.
Proof.
  split; [reflexivity |].
  destruct (normalize_zero_length (Point.mk 0 0)) as (_ & _ & _ & Hzero & _).
  destruct Hzero as [Hx _]; [reflexivity | exact Hx].
Defined.

Lemma combineRGBComponents_packs_witness :
  combineRGBComponents (JS.numOfZ 255) (JS.numOfZ 128) (JS.numOfZ 64)
  = JS.numOfZ (Z.lor (Z.lor (Z.shiftl 255 16) (Z.shiftl 128 8)) 64).
Proof.
  apply (combineRGBComponents_packs 255 128 64); lia.
Defined.

(** ** hexToRGB *)

Ltac each_char c := destruct c as [[] [] [] [] [] [] [] []].

Lemma isHex_facts (c : ascii) :
  Spec.isHex c = true ->
  JS.isWhiteSpace c = false
  /\ Ascii.eqb c "#" = false
  /\ c <> "x"%char /\ c <> "X"%char
  /\ 0 <= Spec.hexValue c <= 15
  /\ JS.hexDigit c = Some (Spec.hexValue c).
Proof.
  each_char c; intros H; try discriminate H;
    (repeat split; [try reflexivity; try discriminate; try (vm_compute; congruence) ..]).
Qed.

Lemma stripSign_hex (c : ascii) (rest : string) :
  Spec.isHex c = true -> JS.stripSign (String c rest) = (false, String c rest).
Proof. each_char c; intros H; try discriminate H; reflexivity. Qed.

Lemma stripHexPrefix_hex (c1 c2 : ascii) (rest : string) :
  Spec.isHex c2 = true ->
  JS.stripHexPrefix (String c1 (String c2 rest)) = String c1 (String c2 rest).
Proof.
  intros H. each_char c1; try reflexivity.
  each_char c2; try discriminate H; reflexivity.
Qed.

Lemma parseInt16_pair (c1 c2 : ascii) :
  Spec.isHex c1 = true -> Spec.isHex c2 = true ->
  JS.parseInt16 (String c1 (String c2 EmptyString)) = Spec.channel c1 c2.
Proof.
  intros H1 H2.
  destruct (isHex_facts c1 H1) as (Hw1 & _ & _ & _ & _ & Hd1).
  destruct (isHex_facts c2 H2) as (_ & _ & _ & _ & _ & Hd2).
  unfold JS.parseInt16. cbn [JS.trimStart]. rewrite Hw1.
  rewrite stripSign_hex, stripHexPrefix_hex by assumption.
  cbn [JS.hexPrefix]. rewrite Hd1, Hd2. cbn [JS.hexPrefix].
  reflexivity.
Qed.

Lemma index_0_cons (pat : string) (c : ascii) (rest : string) :
  String.index 0 pat (String c rest)
  = if String.prefix pat (String c rest) then Some 0%nat
    else match String.index 0 pat rest with
         | Some n => Some (S n)
         | None => None
         end.
Proof. reflexivity. Qed.

Lemma indexOf_0x_hex (c1 c2 : ascii) (rest : string) :
  Spec.isHex c2 = true ->
  (JS.indexOf "0x" (String c1 (String c2 rest)) =? 0) = false.
Proof.
  intros H2. destruct (isHex_facts c2 H2) as (_ & _ & Hx & _).
  unfold JS.indexOf. rewrite index_0_cons.
  assert (Hp : String.prefix "0x" (String c1 (String c2 rest)) = false).
  { cbn [String.prefix]. destruct (ascii_dec "0" c1) as [_ | _]; [| reflexivity].
    destruct (ascii_dec "x" c2) as [E | _]; [congruence | reflexivity]. }
  rewrite Hp.
  destruct (String.index 0 "0x" (String c2 rest)); reflexivity.
Qed.

Lemma channel_range (c1 c2 : ascii) :
  Spec.isHex c1 = true -> Spec.isHex c2 = true ->
  exists n, 0 <= n <= 255 /\ Spec.channel c1 c2 = JS.numOfZ n.
Proof.
  intros H1 H2.
  destruct (isHex_facts c1 H1) as (_ & _ & _ & _ & R1 & _).
  destruct (isHex_facts c2 H2) as (_ & _ & _ & _ & R2 & _).
  exists (16 * Spec.hexValue c1 + Spec.hexValue c2). split; [lia | reflexivity].
Qed.

Lemma indexOf_0x_prefix (rest : string) :
  JS.indexOf "0x" (String "0" (String "x" rest)) = 0.
Proof.
  unfold JS.indexOf. rewrite index_0_cons.
  assert (Hp : String.prefix "0x" (String "0" (String "x" rest)) = true)
    by (destruct rest; reflexivity).
  rewrite Hp. reflexivity.
Qed.

Section HexForms.
Variables a1 a2 r1 r2 g1 g2 b1 b2 : ascii.
Hypothesis Hhex : forallb Spec.isHex [a1; a2; r1; r2; g1; g2; b1; b2] = true.

Abbreviation rgb := (Spec.rgbDigits r1 r2 g1 g2 b1 b2).
Abbreviation argb := (Spec.argbDigits a1 a2 r1 r2 g1 g2 b1 b2).

Lemma hex_each :
  Spec.isHex a1 = true /\ Spec.isHex a2 = true /\ Spec.isHex r1 = true
  /\ Spec.isHex r2 = true /\ Spec.isHex g1 = true /\ Spec.isHex g2 = true
  /\ Spec.isHex b1 = true /\ Spec.isHex b2 = true.
Proof.
  revert Hhex. cbn [forallb]. rewrite !andb_true_iff. tauto.
Qed.

Lemma hexToRGB_bare6 output :
  hexToRGB rgb output = [Spec.channel r1 r2; Spec.channel g1 g2; Spec.channel b1 b2].
Proof.
  destruct hex_each as (_ & _ & Hr1 & Hr2 & Hg1 & Hg2 & Hb1 & Hb2).
  destruct (isHex_facts r1 Hr1) as (_ & Hs & _).
  unfold hexToRGB, Spec.rgbDigits.
  cbn [JS.charAt String.get String.eqb]. rewrite Hs. cbn [andb].
  rewrite indexOf_0x_hex by assumption.
  cbn. rewrite !parseInt16_pair by assumption.
  destruct output; reflexivity.
Qed.

Lemma hexToRGB_hash6 output :
  hexToRGB (String "#" rgb) output
  = [Spec.channel r1 r2; Spec.channel g1 g2; Spec.channel b1 b2].
Proof.
  destruct hex_each as (_ & _ & Hr1 & Hr2 & Hg1 & Hg2 & Hb1 & Hb2).
  unfold hexToRGB, Spec.rgbDigits.
  cbn. rewrite !parseInt16_pair by assumption.
  destruct output; reflexivity.
Qed.

Lemma hexToRGB_0x6 output :
  hexToRGB (String "0" (String "x" rgb)) output
  = [Spec.channel r1 r2; Spec.channel g1 g2; Spec.channel b1 b2].
Proof.
  destruct hex_each as (_ & _ & Hr1 & Hr2 & Hg1 & Hg2 & Hb1 & Hb2).
  unfold hexToRGB, Spec.rgbDigits.
  rewrite indexOf_0x_prefix. cbn. rewrite !parseInt16_pair by assumption.
  destruct output; reflexivity.
Qed.

Lemma hexToRGB_bare8 output :
  hexToRGB argb output
  = [Spec.channel r1 r2; Spec.channel g1 g2; Spec.channel b1 b2; Spec.channel a1 a2].
Proof.
  destruct hex_each as (Ha1 & Ha2 & Hr1 & Hr2 & Hg1 & Hg2 & Hb1 & Hb2).
  destruct (isHex_facts a1 Ha1) as (_ & Hs & _).
  unfold hexToRGB, Spec.argbDigits, Spec.rgbDigits.
  cbn [JS.charAt String.get String.eqb]. rewrite Hs. cbn [andb].
  rewrite indexOf_0x_hex by assumption.
  cbn. rewrite !parseInt16_pair by assumption.
  destruct output; reflexivity.
Qed.

Lemma hexToRGB_hash8 output :
  hexToRGB (String "#" argb) output
  = [Spec.channel r1 r2; Spec.channel g1 g2; Spec.channel b1 b2; Spec.channel a1 a2].
Proof.
  destruct hex_each as (Ha1 & Ha2 & Hr1 & Hr2 & Hg1 & Hg2 & Hb1 & Hb2).
  unfold hexToRGB, Spec.argbDigits, Spec.rgbDigits.
  cbn. rewrite !parseInt16_pair by assumption.
  destruct output; reflexivity.
Qed.

Lemma hexToRGB_0x8 output :
  hexToRGB (String "0" (String "x" argb)) output
  = [Spec.channel r1 r2; Spec.channel g1 g2; Spec.channel b1 b2; Spec.channel a1 a2].
Proof.
  destruct hex_each as (Ha1 & Ha2 & Hr1 & Hr2 & Hg1 & Hg2 & Hb1 & Hb2).
  unfold hexToRGB, Spec.argbDigits, Spec.rgbDigits.
  rewrite indexOf_0x_prefix. cbn. rewrite !parseInt16_pair by assumption.
  destruct output; reflexivity.
Qed.
End HexForms.

(** C5. For hexadecimal digits, the six forms #AARRGGBB, #RRGGBB,
    0xAARRGGBB, 0xRRGGBB, AARRGGBB and RRGGBB give the same channels: the
    six-digit forms give [r, g, b], the eight-digit forms [r, g, b, a] with
    the leading alpha last. Every channel is an integer in 0..255.
    [hexToRGB("#FF8040")] is [255, 128, 64] and [hexToRGB("0x80FF8040")] is
    [255, 128, 64, 128]. *)
Theorem hexToRGB_six_forms
    (a1 a2 r1 r2 g1 g2 b1 b2 : ascii) (output : option (list float)) :
  forallb Spec.isHex [a1; a2; r1; r2; g1; g2; b1; b2] = true ->
  let rgb := Spec.rgbDigits r1 r2 g1 g2 b1 b2 in
  let argb := Spec.argbDigits a1 a2 r1 r2 g1 g2 b1 b2 in
  let R := Spec.channel r1 r2 in
  let G := Spec.channel g1 g2 in
  let B := Spec.channel b1 b2 in
  let A := Spec.channel a1 a2 in
  (hexToRGB (String "#" argb) output = [R; G; B; A]
   /\ hexToRGB (String "#" rgb) output = [R; G; B]
   /\ hexToRGB (String "0" (String "x" argb)) output = [R; G; B; A]
   /\ hexToRGB (String "0" (String "x" rgb)) output = [R; G; B]
   /\ hexToRGB argb output = [R; G; B; A]
   /\ hexToRGB rgb output = [R; G; B])
  /\ Forall (fun v => exists n, 0 <= n <= 255 /\ v = JS.numOfZ n) [R; G; B; A]
  /\ hexToRGB "#FF8040" None = [255; 128; 64]%float
  /\ hexToRGB "0x80FF8040" None = [255; 128; 64; 128]%float.
Proof.
  intros Hhex rgb argb R G B A.
  destruct (hex_each _ _ _ _ _ _ _ _ Hhex)
    as (Ha1 & Ha2 & Hr1 & Hr2 & Hg1 & Hg2 & Hb1 & Hb2).
  split; [| split; [| split; vm_compute; reflexivity]].
  - repeat split.
    + eapply hexToRGB_hash8; eassumption.
    + eapply hexToRGB_hash6; eassumption.
    + eapply hexToRGB_0x8; eassumption.
    + eapply hexToRGB_0x6; eassumption.
    + eapply hexToRGB_bare8; eassumption.
    + eapply hexToRGB_bare6; eassumption.
  - repeat constructor; apply channel_range; assumption.
Qed.

Lemma hexToRGB_six_forms_witness :
  hexToRGB "80ff8040" None = [255; 128; 64; 128]%float
  /\ hexToRGB "ff8040" None = [255; 128; 64]%float.
Proof.
  pose proof (hexToRGB_six_forms "8" "0" "f" "f" "8" "0" "4" "0" None eq_refl)
    as (Hforms & _).
  destruct Hforms as (_ & _ & _ & _ & H8 & H6).
  split; [exact H8 | exact H6].
Defined.

(** ** getBlendMode *)

Lemma prefix_space (c : ascii) (rest : string) :
  String.prefix " " (String c rest) = Ascii.eqb c " ".
Proof.
  cbn [String.prefix]. destruct (ascii_dec " " c) as [<- | Hne].
  - destruct rest; reflexivity.
  - symmetry. apply Ascii.eqb_neq. congruence.
Qed.

Lemma substrFrom_0 (str : string) : JS.substrFrom 0 str = str.
Proof.
  unfold JS.substrFrom. rewrite Nat.sub_0_r.
  induction str as [| c rest IH]; [reflexivity |]. simpl. rewrite IH. reflexivity.
Qed.

Lemma substrFrom_S (n : nat) (c : ascii) (rest : string) :
  JS.substrFrom (S n) (String c rest) = JS.substrFrom n rest.
Proof. reflexivity. Qed.

Lemma replace_space_cons (c : ascii) (rest : string) :
  JS.replace " " "_" (String c rest)
  = if Ascii.eqb c " " then String "_" rest
    else String c (JS.replace " " "_" rest).
Proof.
  unfold JS.replace. rewrite index_0_cons, prefix_space.
  destruct (Ascii.eqb c " ").
  - cbn [String.substring String.append String.length Nat.add].
    rewrite substrFrom_S, substrFrom_0. reflexivity.
  - destruct (String.index 0 " " rest) as [n |]; [| reflexivity].
    cbn [String.length Nat.add]. rewrite substrFrom_S. reflexivity.
Qed.

Lemma indexOf_space (str : string) :
  (JS.indexOf " " str >=? 0) = negb (Spec.countSpaces str =? 0)%nat.
Proof.
  unfold JS.indexOf. induction str as [| c rest IH]; [reflexivity |].
  rewrite index_0_cons, prefix_space. cbn [Spec.countSpaces].
  destruct (Ascii.eqb c " "); [reflexivity |].
  rewrite Nat.add_0_l, <- IH.
  destruct (String.index 0 " " rest) as [n |]; [| reflexivity].
  transitivity true; [| symmetry]; apply Z.geb_le; lia.
Qed.

Lemma underscored_no_space (str : string) :
  Spec.countSpaces str = 0%nat -> Spec.underscored str = str.
Proof.
  induction str as [| c rest IH]; [reflexivity |]. cbn.
  destruct (Ascii.eqb c " "); [discriminate |].
  intros H. rewrite IH by exact H. reflexivity.
Qed.

Lemma replace_space_step (str : string) :
  Spec.countSpaces str <> 0%nat ->
  Spec.countSpaces (JS.replace " " "_" str) = Nat.pred (Spec.countSpaces str)
  /\ Spec.underscored (JS.replace " " "_" str) = Spec.underscored str.
Proof.
  induction str as [| c rest IH]; [intros H; contradiction |].
  rewrite replace_space_cons. cbn [Spec.countSpaces Spec.underscored].
  destruct (Ascii.eqb c " ") eqn:Hc.
  - intros _. cbn. split; reflexivity.
  - rewrite Nat.add_0_l. intros H. cbn [Spec.countSpaces Spec.underscored].
    rewrite Hc, Nat.add_0_l. destruct (IH H) as [-> ->]. split; reflexivity.
Qed.

Lemma replaceSpaces_enough (fuel : nat) (str : string) :
  (Spec.countSpaces str <= fuel)%nat ->
  replaceSpaces fuel str = Some (Spec.underscored str).
Proof.
  revert str. induction fuel as [| fuel IH]; intros str Hle.
  - cbn [replaceSpaces]. rewrite indexOf_space.
    assert (H0 : Spec.countSpaces str = 0%nat) by lia.
    rewrite H0. cbn. rewrite underscored_no_space by exact H0. reflexivity.
  - cbn [replaceSpaces]. rewrite indexOf_space.
    destruct (Nat.eqb_spec (Spec.countSpaces str) 0) as [H0 | Hn]; cbn [negb].
    + rewrite underscored_no_space by exact H0. reflexivity.
    + destruct (replace_space_step str Hn) as [Hc Hu].
      rewrite IH by lia. rewrite Hu. reflexivity.
Qed.

Lemma countSpaces_le (str : string) :
  (Spec.countSpaces str <= String.length str)%nat.
Proof.
  induction str as [| c rest IH]; [reflexivity |].
  cbn [Spec.countSpaces String.length]. destruct (Ascii.eqb c " "); lia.
Qed.

Lemma toUpperCase_length (str : string) :
  String.length (JS.toUpperCase str) = String.length str.
Proof. induction str as [| c rest IH]; [reflexivity |]. cbn. rewrite IH. reflexivity. Qed.

Section BlendModeFacts.
Variable BLEND_MODES : gmap string Z.

Lemma getBlendMode_named (name : string) :
  name <> EmptyString ->
  getBlendMode BLEND_MODES (Some name)
  = Some (lookupOrNormal BLEND_MODES (Spec.underscored (JS.toUpperCase name))).
Proof.
  intros Hne. unfold getBlendMode, getBlendMode_fuel. cbn [default].
  destruct (String.eqb_spec name "") as [-> | _]; [contradiction |].
  rewrite replaceSpaces_enough; [reflexivity |].
  rewrite <- toUpperCase_length. apply countSpaces_le.
Qed.

Lemma getBlendMode_empty :
  getBlendMode BLEND_MODES None = Some (BLEND_MODES !! "NORMAL")
  /\ getBlendMode BLEND_MODES (Some EmptyString) = Some (BLEND_MODES !! "NORMAL").
Proof. split; reflexivity. Qed.

Lemma getBlendMode_unrecognized (name : string) :
  BLEND_MODES !! Spec.underscored (JS.toUpperCase name) = None ->
  getBlendMode BLEND_MODES (Some name) = Some (BLEND_MODES !! "NORMAL").
Proof.
  intros Hnone. destruct (String.eqb_spec name "") as [-> | Hne].
  - reflexivity.
  - rewrite getBlendMode_named by exact Hne.
    unfold lookupOrNormal. rewrite Hnone. reflexivity.
Qed.
End BlendModeFacts.

(** C6. [getBlendMode] looks the name up in upper case with every space
    turned into an underscore, so names that differ only in case resolve
    alike ("Screen", "screen", "SCREEN"); [undefined], the empty name and
    a name the table does not know (such as "not a mode") resolve to
    [BLEND_MODES.NORMAL]; the function always returns. *)
Theorem getBlendMode_resolution (BLEND_MODES : gmap string Z) :
  let get := getBlendMode BLEND_MODES in
  let NORMAL := BLEND_MODES !! "NORMAL" in
  (forall name : string, name <> EmptyString ->
     get (Some name)
     = Some (lookupOrNormal BLEND_MODES (Spec.underscored (JS.toUpperCase name))))
  /\ (forall a b : string, a <> EmptyString -> b <> EmptyString ->
        JS.toUpperCase a = JS.toUpperCase b -> get (Some a) = get (Some b))
  /\ (get (Some "Screen") = get (Some "SCREEN")
      /\ get (Some "screen") = get (Some "SCREEN")
      /\ get (Some "SCREEN") = Some (lookupOrNormal BLEND_MODES "SCREEN"))
  /\ get (Some "color dodge") = get (Some "COLOR_DODGE")
  /\ get None = Some NORMAL
  /\ get (Some EmptyString) = Some NORMAL
  /\ (forall name : string,
        BLEND_MODES !! Spec.underscored (JS.toUpperCase name) = None ->
        get (Some name) = Some NORMAL)
  /\ (BLEND_MODES !! "NOT_A_MODE" = None -> get (Some "not a mode") = Some NORMAL)
  /\ (forall name : option string, exists v, get name = Some v)
  /\ getBlendMode Spec.PIXI_BLEND_MODES (Some "not a mode") = Some (Some 0)
  /\ getBlendMode Spec.PIXI_BLEND_MODES None = Some (Some 0)
  /\ getBlendMode Spec.PIXI_BLEND_MODES (Some "Screen") = Some (Some 3).
Proof.
  intros get NORMAL. unfold get, NORMAL.
  split; [apply getBlendMode_named |].
  split.
  { intros a b Ha Hb Hab. rewrite !getBlendMode_named by assumption.
    rewrite Hab. reflexivity. }
  split.
  { rewrite !getBlendMode_named by discriminate. repeat split. }
  split.
  { rewrite !getBlendMode_named by discriminate. reflexivity. }
  split; [reflexivity |]. split; [reflexivity |].
  split; [apply getBlendMode_unrecognized |].
  split; [intros H; apply getBlendMode_unrecognized; exact H |].
  split.
  { intros [name |]; [| eexists; reflexivity].
    destruct (String.eqb_spec name "") as [-> | Hne]; [eexists; reflexivity |].
    rewrite getBlendMode_named by exact Hne. eexists; reflexivity. }
  repeat split; vm_compute; reflexivity.
Qed.

(** ** The polygonal-chain strategy *)

Lemma eqb_nonzero_inv (a b : float) :
  (a =? b)%float = true -> is_zero b = false -> a = b.
Proof.
  unfold is_zero. rewrite !FloatAxioms.eqb_spec. intros Hab Hb.
  apply Prim2SF_inj. revert Hab Hb. change (Prim2SF 0) with (S754_zero false).
  destruct (Prim2SF a) as [sa | sa | | sa ma ea], (Prim2SF b) as [sb | sb | | sb mb eb];
    unfold SFeqb; cbn [SFcompare]; try discriminate;
    try (destruct sa; discriminate); try (destruct sb; discriminate).
  - destruct sa, sb; try discriminate; reflexivity.
  - intros H _.
    change (Pos.compare_cont Eq ma mb) with (Pos.compare ma mb) in H.
    destruct sa, sb; try discriminate H;
      destruct (Z.compare_spec ea eb) as [-> | _ | _]; try discriminate H;
      destruct (Pos.compare_spec ma mb) as [-> | _ | _]; try discriminate H;
      reflexivity.
Qed.

Lemma rotatePoint_falsy (Math_sin Math_cos : float -> float) (angle : float)
    (pt : Point.t) :
  JS.truthy angle = false -> rotatePoint Math_sin Math_cos angle pt = pt.
Proof. intros H. unfold rotatePoint. rewrite H. reflexivity. Qed.

#[local] Arguments JS.truthy : simpl never.
#[local] Arguments ParticleUtils.rotatePoint : simpl never.

Ltac run_store Hp He Ht Hpos :=
  repeat first
    [ rewrite Hp | rewrite He | rewrite Ht | rewrite Hpos
    | match goal with H : Particle.position _ = _ |- _ => rewrite H end
    | match goal with H : JS.truthy _ = _ |- _ => rewrite H end
    | match goal with
      | H : JS.truthy _ = false |- _ => rewrite (rotatePoint_falsy _ _ _ _ H)
      end
    | rewrite lookup_insert_eq
    | rewrite lookup_insert_ne by congruence
    | progress cbn ].

Section SpawnFacts.
Variables Math_sin Math_cos : float -> float.
Variable Rng : Type.
Variable Math_random : Rng -> float * Rng.
Variable PolygonalChain : Type.
Variable getRandomPoint : PolygonalChain -> Point.t -> Rng -> Point.t * Rng.

Abbreviation Store := (SpawnPolygonStrategy.Store Rng PolygonalChain).
Abbreviation spawn :=
  (SpawnPolygonStrategy.spawn Math_sin Math_cos Math_random getRandomPoint).
Abbreviation startRotation := (SpawnPolygonStrategy.startRotation Math_random).
Abbreviation chainSample :=
  (SpawnPolygonStrategy.chainSample Math_random getRandomPoint).
Abbreviation spawnedPoint :=
  (SpawnPolygonStrategy.spawnedPoint Math_sin Math_cos Math_random getRandomPoint).

Abbreviation spawnable := (@SpawnPolygonStrategy.spawnable Rng PolygonalChain).

Lemma spawn_run (p : positive) (emitPosX emitPosY : float) (st : Store)
    (part : Particle.t) (em : Emitter.t PolygonalChain) (tmp : Point.t) :
  spawnable st p part em tmp ->
  let pt := spawnedPoint em tmp (SpawnPolygonStrategy.rng st) in
  exists st',
    spawn p emitPosX emitPosY st = Some (tt, st')
    /\ SpawnPolygonStrategy.emitters st' = SpawnPolygonStrategy.emitters st
    /\ SpawnPolygonStrategy.particles st'
       = <[p := Particle.mk (Particle.emitter part)
                  (fst (startRotation em (SpawnPolygonStrategy.rng st)))
                  (Particle.position part)]>
           (SpawnPolygonStrategy.particles st)
    /\ SpawnPolygonStrategy.Temp_point st' = SpawnPolygonStrategy.Temp_point st
    /\ SpawnPolygonStrategy.rng st'
       = snd (chainSample em tmp (SpawnPolygonStrategy.rng st))
    /\ SpawnPolygonStrategy.points st' !! Particle.position part
       = Some (Point.mk (emitPosX + Point.x pt)%float (emitPosY + Point.y pt)%float)
    /\ (Particle.position part <> SpawnPolygonStrategy.Temp_point st ->
        SpawnPolygonStrategy.points st' !! SpawnPolygonStrategy.Temp_point st = Some pt)
    /\ (forall a, a <> SpawnPolygonStrategy.Temp_point st ->
          a <> Particle.position part ->
          SpawnPolygonStrategy.points st' !! a = SpawnPolygonStrategy.points st !! a).
Proof.
  intros (Hp & He & Ht & [pos Hpos]) pt.
  unfold pt, SpawnPolygonStrategy.spawnedPoint, SpawnPolygonStrategy.chainSample,
    SpawnPolygonStrategy.startRotation.
  unfold SpawnPolygonStrategy.spawn, SpawnPolygonStrategy.bind,
    SpawnPolygonStrategy.setRotation, SpawnPolygonStrategy.random,
    SpawnPolygonStrategy.sampleInto, SpawnPolygonStrategy.rotatePointAt,
    SpawnPolygonStrategy.setX, SpawnPolygonStrategy.setY,
    SpawnPolygonStrategy.setPoint, SpawnPolygonStrategy.bind,
    SpawnPolygonStrategy.getParticle, SpawnPolygonStrategy.getEmitter,
    SpawnPolygonStrategy.getPoint, SpawnPolygonStrategy.getTemp,
    SpawnPolygonStrategy.ret.
  destruct st as [ems parts pts T g]. unfold JS.eqNum. cbn in Hp, He, Ht, Hpos |- *.
  destruct (JS.truthy (Emitter.rotation em)) eqn:Htruthy;
  destruct (decide (Particle.position part = T)) as [Heq | Hne].
  1, 3: rewrite Heq in *; run_store Hp He Ht Hpos;
    destruct (Emitter.minStartRotation em =? Emitter.maxStartRotation em)%float;
      run_store Hp He Ht Hpos;
      (destruct (Math_random g) as [u g1]);
      run_store Hp He Ht Hpos;
      (destruct (getRandomPoint _ tmp _) as [smp g2]);
      run_store Hp He Ht Hpos;
      (destruct (Emitter.rotation em =? 0)%float);
      run_store Hp He Ht Hpos;
      (eexists; split; [reflexivity |]); cbn;
      (repeat split; try reflexivity; try apply lookup_insert_eq;
       [congruence | intros a Ha1 Ha2; rewrite !lookup_insert_ne by congruence; reflexivity]).
  all: assert (Hne' : T <> Particle.position part) by congruence;
    run_store Hp He Ht Hpos;
    destruct (Emitter.minStartRotation em =? Emitter.maxStartRotation em)%float;
      run_store Hp He Ht Hpos;
      (destruct (Math_random g) as [u g1]);
      run_store Hp He Ht Hpos;
      (destruct (getRandomPoint _ tmp _) as [smp g2]);
      run_store Hp He Ht Hpos;
      (destruct (Emitter.rotation em =? 0)%float);
      run_store Hp He Ht Hpos;
      (eexists; split; [reflexivity |]); cbn;
      (repeat split; try reflexivity; try apply lookup_insert_eq;
       [intros _; rewrite !lookup_insert_ne by congruence; apply lookup_insert_eq
       | intros a Ha1 Ha2; rewrite !lookup_insert_ne by congruence; reflexivity]).
Qed.

Lemma spawn_some_inv (p : positive) (emitPosX emitPosY : float) (st : Store)
    (r : unit * Store) :
  spawn p emitPosX emitPosY st = Some r ->
  exists part em tmp, spawnable st p part em tmp.
Proof.
  unfold SpawnPolygonStrategy.spawnable.
  unfold SpawnPolygonStrategy.spawn, SpawnPolygonStrategy.bind,
    SpawnPolygonStrategy.setRotation, SpawnPolygonStrategy.random,
    SpawnPolygonStrategy.sampleInto, SpawnPolygonStrategy.rotatePointAt,
    SpawnPolygonStrategy.setX, SpawnPolygonStrategy.setY,
    SpawnPolygonStrategy.setPoint, SpawnPolygonStrategy.bind,
    SpawnPolygonStrategy.getParticle, SpawnPolygonStrategy.getEmitter,
    SpawnPolygonStrategy.getPoint, SpawnPolygonStrategy.getTemp,
    SpawnPolygonStrategy.ret.
  destruct st as [ems parts pts T g]. unfold JS.eqNum. cbn.
  destruct (parts !! p) as [part |] eqn:Hp; [| cbn; discriminate].
  cbn. destruct (ems !! Particle.emitter part) as [em |] eqn:He; [| cbn; discriminate].
  destruct (pts !! T) as [tmp |] eqn:Ht.
  - destruct (pts !! Particle.position part) as [pos |] eqn:Hpos;
      [intros _; exists part, em, tmp; rewrite Hpos; eauto |].
    assert (Hne : Particle.position part <> T) by congruence.
    assert (Hne' : T <> Particle.position part) by congruence.
    intros H. exfalso. revert H.
    destruct (JS.truthy (Emitter.rotation em)) eqn:Htruthy;
    destruct (Emitter.minStartRotation em =? Emitter.maxStartRotation em)%float;
      run_store Hp He Ht Hpos;
      (destruct (Math_random g) as [u g1]);
      run_store Hp He Ht Hpos;
      (destruct (getRandomPoint _ tmp _) as [smp g2]);
      run_store Hp He Ht Hpos;
      (destruct (Emitter.rotation em =? 0)%float);
      run_store Hp He Ht Hpos; discriminate.
  - intros H. exfalso. revert H.
    destruct (Emitter.minStartRotation em =? Emitter.maxStartRotation em)%float;
      run_store Hp He Ht Ht;
      (destruct (Math_random g) as [u g1]);
      run_store Hp He Ht Ht; discriminate.
Qed.

(** C2. On a particle it can be called on, [spawn] succeeds and sets the
    particle's rotation to [minStartRotation + emitter.rotation] when
    [minStartRotation == maxStartRotation], and otherwise to
    [u * (max - min) + min + emitter.rotation], with [u] the draw of
    [Math.random()]. With [min == max == 45] and a zero emitter rotation
    the rotation is 45. *)
Theorem spawn_start_rotation (p : positive) (emitPosX emitPosY : float) (st : Store)
    (part : Particle.t) (em : Emitter.t PolygonalChain) (tmp : Point.t) :
  spawnable st p part em tmp ->
  let lo := Emitter.minStartRotation em in
  let hi := Emitter.maxStartRotation em in
  let u := fst (Math_random (SpawnPolygonStrategy.rng st)) in
  exists st' part',
    spawn p emitPosX emitPosY st = Some (tt, st')
    /\ SpawnPolygonStrategy.particles st' !! p = Some part'
    /\ (JS.eqNum lo hi = true ->
        Particle.rotation part' = (lo + Emitter.rotation em)%float)
    /\ (JS.eqNum lo hi = false ->
        Particle.rotation part' = (u * (hi - lo) + lo + Emitter.rotation em)%float)
    /\ (JS.eqNum lo 45 = true -> JS.eqNum hi 45 = true ->
        JS.eqNum (Emitter.rotation em) 0 = true ->
        Particle.rotation part' = 45%float).
Proof.
  intros Hok lo hi u.
  destruct (spawn_run p emitPosX emitPosY st part em tmp Hok)
    as (st' & Hrun & _ & Hparts & _).
  eexists st', _. split; [exact Hrun |].
  split; [rewrite Hparts; apply lookup_insert_eq |].
  cbn [Particle.rotation]. unfold SpawnPolygonStrategy.startRotation.
  fold lo hi u. split; [| split].
  - intros ->. reflexivity.
  - intros ->. reflexivity.
  - intros Hlo Hhi Hrot.
    apply eqb_nonzero_inv in Hlo; [| reflexivity].
    apply eqb_nonzero_inv in Hhi; [| reflexivity].
    rewrite Hlo, Hhi. cbn.
    destruct (eqb_zero_inv _ Hrot) as [-> | ->]; reflexivity.
Qed.

(** C3. [spawn] leaves in the particle's position (the same Point object
    as before) the origin [(emitPosX, emitPosY)] plus the point sampled
    from the emitter's chain; the sample goes through [rotatePoint] with
    the emitter's rotation when that rotation is not zero, and is used as
    it is when the rotation is zero. *)
Theorem spawn_position (p : positive) (emitPosX emitPosY : float) (st : Store)
    (part : Particle.t) (em : Emitter.t PolygonalChain) (tmp : Point.t) :
  spawnable st p part em tmp ->
  let sample := fst (chainSample em tmp (SpawnPolygonStrategy.rng st)) in
  let rotated := rotatePoint Math_sin Math_cos (Emitter.rotation em) sample in
  exists st' part' pos',
    spawn p emitPosX emitPosY st = Some (tt, st')
    /\ SpawnPolygonStrategy.particles st' !! p = Some part'
    /\ Particle.position part' = Particle.position part
    /\ SpawnPolygonStrategy.points st' !! Particle.position part' = Some pos'
    /\ (JS.eqNum (Emitter.rotation em) 0 = true ->
        pos' = Point.mk (emitPosX + Point.x sample)%float
                        (emitPosY + Point.y sample)%float)
    /\ (JS.eqNum (Emitter.rotation em) 0 = false ->
        pos' = Point.mk (emitPosX + Point.x rotated)%float
                        (emitPosY + Point.y rotated)%float).
Proof.
  intros Hok sample rotated.
  destruct (spawn_run p emitPosX emitPosY st part em tmp Hok)
    as (st' & Hrun & _ & Hparts & _ & _ & Hpos & _).
  eexists st', _, _. split; [exact Hrun |].
  split; [rewrite Hparts; apply lookup_insert_eq |].
  cbn [Particle.position]. split; [reflexivity |]. split; [exact Hpos |].
  unfold SpawnPolygonStrategy.spawnedPoint. fold sample. fold rotated.
  split; intros ->; reflexivity.
Qed.

(** C10. A call of [spawn] that returns leaves every emitter, field by
    field, every other particle, the reference [Temp.point] and every Point
    other than the scratch point and the particle's position as they were;
    the spawned particle keeps its emitter and its position object. (What
    changes: that particle's rotation, the contents of its position and of
    the scratch point, and the state of the random generator.) *)
Theorem spawn_frame (p : positive) (emitPosX emitPosY : float) (st st' : Store) :
  spawn p emitPosX emitPosY st = Some (tt, st') ->
  SpawnPolygonStrategy.emitters st' = SpawnPolygonStrategy.emitters st
  /\ (forall a em, SpawnPolygonStrategy.emitters st !! a = Some em ->
        exists em', SpawnPolygonStrategy.emitters st' !! a = Some em'
          /\ Emitter.position em' = Emitter.position em
          /\ Emitter.rotation em' = Emitter.rotation em
          /\ Emitter.minStartRotation em' = Emitter.minStartRotation em
          /\ Emitter.maxStartRotation em' = Emitter.maxStartRotation em
          /\ Emitter.spawnType em' = Emitter.spawnType em
          /\ Emitter.spawnPolygonalChain em' = Emitter.spawnPolygonalChain em)
  /\ SpawnPolygonStrategy.Temp_point st' = SpawnPolygonStrategy.Temp_point st
  /\ (forall q, q <> p ->
        SpawnPolygonStrategy.particles st' !! q = SpawnPolygonStrategy.particles st !! q)
  /\ (exists part part',
        SpawnPolygonStrategy.particles st !! p = Some part
        /\ SpawnPolygonStrategy.particles st' !! p = Some part'
        /\ Particle.emitter part' = Particle.emitter part
        /\ Particle.position part' = Particle.position part
        /\ (forall a, a <> SpawnPolygonStrategy.Temp_point st ->
              a <> Particle.position part ->
              SpawnPolygonStrategy.points st' !! a
              = SpawnPolygonStrategy.points st !! a)).
Proof.
  intros Hs.
  destruct (spawn_some_inv _ _ _ _ _ Hs) as (part & em & tmp & Hok).
  destruct (spawn_run p emitPosX emitPosY st part em tmp Hok)
    as (st1 & Hrun & Hems & Hparts & Htemp & _ & _ & _ & Hpts).
  rewrite Hrun in Hs. injection Hs as <-.
  split; [exact Hems |]. split; [| split; [exact Htemp | split]].
  - intros a em0 Ha. exists em0. rewrite Hems. repeat split. exact Ha.
  - intros q Hq. rewrite Hparts. apply lookup_insert_ne. congruence.
  - destruct Hok as (Hp & _).
    eexists part, _. split; [exact Hp |].
    split; [rewrite Hparts; apply lookup_insert_eq |].
    split; [reflexivity |]. split; [reflexivity |]. exact Hpts.
Qed.
End SpawnFacts.

Lemma spawn_start_rotation_witness :
  exists st' part',
    World.spawn 7%positive 100 200 (World.store World.fixedEmitter) = Some (tt, st')
    /\ SpawnPolygonStrategy.particles st' !! 7%positive = Some part'
    /\ Particle.rotation part' = 45%float.
Proof.
  destruct (spawn_start_rotation World.trig World.trig nat World.Math_random
              Point.t World.getRandomPoint 7%positive 100 200
              (World.store World.fixedEmitter)
              World.particle World.fixedEmitter (Point.mk 0 0))
    as (st' & part' & Hs & Hp & _ & _ & H45).
  - repeat split. exists (Point.mk 0 0). reflexivity.
  - exists st', part'. split; [exact Hs |]. split; [exact Hp |].
    apply H45; reflexivity.
Defined.

Lemma spawn_position_witness :
  exists st',
    World.spawn 7%positive 100 200 (World.store World.fixedEmitter) = Some (tt, st')
    /\ SpawnPolygonStrategy.points st' !! 3%positive = Some (Point.mk 103 204).
Proof.
  destruct (spawn_position World.trig World.trig nat World.Math_random
              Point.t World.getRandomPoint 7%positive 100 200
              (World.store World.fixedEmitter)
              World.particle World.fixedEmitter (Point.mk 0 0))
    as (st' & part' & pos' & Hs & Hp & Hsame & Hpos & Hz & _).
  - repeat split. exists (Point.mk 0 0). reflexivity.
  - exists st'. split; [exact Hs |].
    rewrite Hsame in Hpos. rewrite (Hz eq_refl) in Hpos. exact Hpos.
Defined.

Lemma spawn_frame_witness :
  exists st',
    World.spawn 7%positive 100 200 (World.store World.rangeEmitter) = Some (tt, st')
    /\ SpawnPolygonStrategy.emitters st'
       = SpawnPolygonStrategy.emitters (World.store World.rangeEmitter).
Proof.
  eexists. split; [vm_compute; reflexivity |].
  eapply (spawn_frame World.trig World.trig nat World.Math_random
            Point.t World.getRandomPoint 7%positive 100 200).
  vm_compute. reflexivity.
Defined.

(** ** More on rotatePoint, scaleBy, length, combineRGBComponents, normalize *)

(** *** Falsy Numbers *)

Lemma SFeqb_refl (v : spec_float) : v <> S754_nan -> SFeqb v v = true.
Proof.
  intros Hv. destruct v as [sg | sg | | sg m ex]; try congruence; unfold SFeqb; cbn [SFcompare].
  - reflexivity.
  - destruct sg; reflexivity.
  - rewrite Z.compare_refl, Pos.compare_cont_spec, Pos.compare_refl.
    destruct sg; reflexivity.
Qed.

Lemma is_nan_inv (v : float) : is_nan v = true -> v = nan.
Proof.
  unfold is_nan. rewrite FloatAxioms.eqb_spec. intros H.
  apply Prim2SF_inj. change (Prim2SF nan) with S754_nan.
  destruct (Prim2SF v) as [sg | sg | | sg m ex] eqn:E; try reflexivity;
    rewrite SFeqb_refl in H by discriminate; discriminate H.
Qed.

Lemma truthy_false_iff (v : float) :
  JS.truthy v = false <-> v = 0%float \/ v = (-0)%float \/ v = nan.
Proof.
  unfold JS.truthy. split.
  - intros H. apply negb_false_iff, orb_true_iff in H as [H | H].
    + destruct (eqb_zero_inv v H); auto.
    + right. right. apply is_nan_inv. exact H.
  - intros [-> | [-> | ->]]; reflexivity.
Qed.

(** X1. [rotatePoint] leaves the point alone for exactly three angles, 0,
    -0 and NaN (the falsy Numbers); for every other angle, the infinities
    included, both new coordinates are computed from the old ones with
    the sine and cosine of the angle in radians. *)
Theorem rotatePoint_falsy_angles (Math_sin Math_cos : float -> float)
    (angle : float) (p : Point.t) :
  (angle = 0%float \/ angle = (-0)%float \/ angle = nan ->
   rotatePoint Math_sin Math_cos angle p = p)
  /\ (~ (angle = 0%float \/ angle = (-0)%float \/ angle = nan) ->
      let s := Math_sin (angle * DEG_TO_RADS)%float in
      let c := Math_cos (angle * DEG_TO_RADS)%float in
      rotatePoint Math_sin Math_cos angle p
      = Point.mk (Point.x p * c - Point.y p * s)%float
                 (Point.x p * s + Point.y p * c)%float).
Proof.
  split.
  - intros H. apply truthy_false_iff in H. unfold rotatePoint. rewrite H. reflexivity.
  - intros H. assert (Ht : JS.truthy angle = true).
    { destruct (JS.truthy angle) eqn:E; [reflexivity |].
      exfalso. apply H, truthy_false_iff. exact E. }
    unfold rotatePoint. rewrite Ht. reflexivity.
Qed.

(** *** scaleBy *)

Lemma Prim2SF_neg_one : Prim2SF (-1) = S754_finite true 4503599627370496 (-52).
Proof. vm_compute. reflexivity. Qed.

Lemma mul_neg_one_r (v : float) : (v * -1)%float = (- v)%float.
Proof.
  apply Prim2SF_inj. rewrite mul_spec, opp_spec, Prim2SF_neg_one.
  pose proof (Prim2SF_valid v) as Hv.
  destruct (Prim2SF v) as [sg | sg | | sg m ex];
    [destruct sg; reflexivity | destruct sg; reflexivity | reflexivity |].
  unfold SF64mul, SFmul. rewrite xorb_true_r, Pos.mul_comm.
  change (4503599627370496 * m)%positive with (Pos.iter xO m 52).
  change (ex + -52) with (ex - Z.pos 52).
  cbn [SFopp]. apply binary_round_aux_shifted. exact Hv.
Qed.

Lemma opp_involutive (v : float) : (- - v)%float = v.
Proof.
  apply Prim2SF_inj. rewrite !opp_spec.
  destruct (Prim2SF v) as [sg | sg | | sg m ex]; cbn; rewrite ?negb_involutive; reflexivity.
Qed.

(** X2. [scaleBy] by 1 changes nothing, also on NaN, infinite and zero
    coordinates; by -1 it negates both coordinates, and doing that twice
    gives the point back. *)
Theorem scaleBy_unit_factors (point : Point.t) :
  scaleBy point 1 = point
  /\ scaleBy point (-1) = Point.mk (- Point.x point)%float (- Point.y point)%float
  /\ scaleBy (scaleBy point (-1)) (-1) = point.
Proof.
  destruct point as [px py]. unfold scaleBy. cbn [Point.x Point.y].
  rewrite !mul_one_r, !mul_neg_one_r, !opp_involutive. repeat split.
Qed.

(** *** length *)

(** What rounding can return, by its sign argument. *)
Lemma binary_round_aux_sign (sx : bool) (m e : Z) (l : location) :
  match binary_round_aux prec emax sx m e l with
  | S754_zero sg | S754_infinity sg | S754_finite sg _ _ => sg = sx
  | S754_nan => True
  end.
Proof.
  unfold binary_round_aux.
  destruct (shr_fexp prec emax m e l) as [r1 e1].
  destruct (shr_fexp prec emax _ e1 loc_Exact) as [r2 e2].
  destruct (shr_m r2); [reflexivity | | exact I].
  destruct (e2 <=? emax - prec); reflexivity.
Qed.

Lemma square_not_negative (v : spec_float) : Spec.not_negative (SF64mul v v).
Proof.
  destruct v as [sg | sg | | sg m ex];
    [destruct sg; reflexivity | destruct sg; reflexivity | exact I |].
  unfold SF64mul, SFmul. rewrite xorb_nilpotent.
  pose proof (binary_round_aux_sign false (Z.pos (m * m)) (ex + ex) loc_Exact) as H.
  destruct (binary_round_aux prec emax false (Z.pos (m * m)) (ex + ex) loc_Exact);
    cbn; auto.
Qed.

Lemma binary_normalize_not_negative (m e : Z) :
  0 <= m -> Spec.not_negative (binary_normalize prec emax m e false).
Proof.
  intros Hm. destruct m as [| p | p]; [reflexivity | | lia].
  unfold binary_normalize, binary_round.
  destruct (shl_align p e (fexp prec emax (Z.pos (digits2_pos p) + e))) as [mz ez].
  pose proof (binary_round_aux_sign false (Z.pos mz) ez loc_Exact) as H.
  destruct (binary_round_aux prec emax false (Z.pos mz) ez loc_Exact); cbn; auto.
Qed.

Lemma add_not_negative (a b : spec_float) :
  Spec.not_negative a -> Spec.not_negative b -> Spec.not_negative (SF64add a b).
Proof.
  destruct a as [sa | sa | | sa ma ea], b as [sb | sb | | sb mb eb];
    cbn [Spec.not_negative]; intros Ha Hb; subst; try exact I; try reflexivity.
  unfold SF64add, SFadd. cbn [cond_Zopp].
  apply binary_normalize_not_negative. lia.
Qed.

Lemma sqrt_not_negative (a : spec_float) :
  Spec.not_negative a -> Spec.not_negative (SF64sqrt a).
Proof.
  destruct a as [sa | sa | | sa ma ea]; cbn [Spec.not_negative]; intros Ha; subst;
    try exact I; try reflexivity.
  unfold SF64sqrt, SFsqrt.
  destruct (SFsqrt_core_binary prec emax (Z.pos ma) ea) as [[mz ez] lz].
  pose proof (binary_round_aux_sign false mz ez lz) as H.
  destruct (binary_round_aux prec emax false mz ez lz); cbn; auto.
Qed.

Lemma not_negative_ltb (v : float) :
  Spec.not_negative (Prim2SF v) -> (v <? 0)%float = false.
Proof.
  rewrite ltb_spec. change (Prim2SF 0) with (S754_zero false).
  destruct (Prim2SF v) as [sg | sg | | sg m ex]; cbn [Spec.not_negative];
    intros H; subst; reflexivity.
Qed.

Lemma square_opp (v : float) : (- v * - v)%float = (v * v)%float.
Proof.
  apply Prim2SF_inj. rewrite !mul_spec, !opp_spec.
  destruct (Prim2SF v) as [sg | sg | | sg m ex]; cbn; try reflexivity;
    destruct sg; reflexivity.
Qed.

Lemma SFadd_comm (a b : spec_float) : SF64add a b = SF64add b a.
Proof.
  destruct a as [sa | sa | | sa ma ea], b as [sb | sb | | sb mb eb];
    cbn; try reflexivity; try (destruct sa, sb; reflexivity).
  rewrite (Z.min_comm eb ea). f_equal. apply Z.add_comm.
Qed.

Lemma add_comm (a b : float) : (a + b)%float = (b + a)%float.
Proof. apply Prim2SF_inj. rewrite !add_spec. apply SFadd_comm. Qed.

(** X3. [length] is never below zero (it is zero or more, or NaN), and it
    does not change when a coordinate changes sign or when the two
    coordinates are exchanged. *)
Theorem length_never_negative (point : Point.t) :
  (ParticleUtils.length point <? 0)%float = false
  /\ ParticleUtils.length (Point.mk (- Point.x point) (Point.y point))
     = ParticleUtils.length point
  /\ ParticleUtils.length (Point.mk (Point.x point) (- Point.y point))
     = ParticleUtils.length point
  /\ ParticleUtils.length (Point.mk (Point.y point) (Point.x point))
     = ParticleUtils.length point.
Proof.
  destruct point as [px py]. unfold ParticleUtils.length. cbn [Point.x Point.y].
  split; [| split; [| split]].
  - apply not_negative_ltb. rewrite sqrt_spec, add_spec, !mul_spec.
    apply sqrt_not_negative, add_not_negative; apply square_not_negative.
  - rewrite square_opp. reflexivity.
  - rewrite square_opp. reflexivity.
  - rewrite add_comm. reflexivity.
Qed.

(** *** combineRGBComponents on arbitrary Numbers *)

Lemma wrap32_range (z : Z) : - 2 ^ 31 <= JS.wrap32 z < 2 ^ 31.
Proof.
  unfold JS.wrap32. pose proof (Z.mod_pos_bound (z + 2 ^ 31) (2 ^ 32)). lia.
Qed.

Lemma land_le_l (a b : Z) : 0 <= a -> 0 <= Z.land a b <= a.
Proof.
  intros Ha. split; [apply Z.land_nonneg; left; exact Ha |].
  pose proof (Z.sub_land_same_l a b) as H.
  assert (0 <= Z.land a (Z.lnot b)) by (apply Z.land_nonneg; left; exact Ha).
  lia.
Qed.

Lemma lor_neg_l_range (a b : Z) : a < 0 -> a <= Z.lor a b < 0.
Proof.
  intros Ha.
  assert (Hl : Z.lor a b = Z.lnot (Z.land (Z.lnot a) (Z.lnot b))).
  { rewrite <- Z.lnot_lor. symmetry. apply Z.lnot_lnot. }
  pose proof (Z.lnot_eq_pred_opp a) as Hna.
  pose proof (land_le_l (Z.lnot a) (Z.lnot b)) as Hb.
  rewrite Hl, Z.lnot_eq_pred_opp. lia.
Qed.

Lemma lor_int32 (a b : Z) :
  - 2 ^ 31 <= a < 2 ^ 31 -> - 2 ^ 31 <= b < 2 ^ 31 ->
  - 2 ^ 31 <= Z.lor a b < 2 ^ 31.
Proof.
  intros Ha Hb.
  destruct (Z.neg_nonneg_cases a) as [Hneg | Hpos].
  { pose proof (lor_neg_l_range a b Hneg). lia. }
  destruct (Z.neg_nonneg_cases b) as [Hnegb | Hposb].
  { pose proof (lor_neg_l_range b a Hnegb). rewrite Z.lor_comm. lia. }
  assert (Hnn : 0 <= Z.lor a b) by (apply Z.lor_nonneg; split; assumption).
  split; [lia |].
  destruct (Z.eq_dec (Z.lor a b) 0) as [-> | Hnz]; [lia |].
  apply Z.log2_lt_pow2; [lia |].
  rewrite Z.log2_lor by assumption.
  apply Z.max_lub_lt.
  - destruct (Z.eq_dec a 0) as [-> | ?]; [cbn; lia |]. apply Z.log2_lt_pow2; lia.
  - destruct (Z.eq_dec b 0) as [-> | ?]; [cbn; lia |]. apply Z.log2_lt_pow2; lia.
Qed.

Lemma is_infinity_inv (v : float) :
  is_infinity v = true -> exists sg, Prim2SF v = S754_infinity sg.
Proof.
  unfold is_infinity. rewrite FloatAxioms.eqb_spec, abs_spec.
  change (Prim2SF infinity) with (S754_infinity false).
  destruct (Prim2SF v) as [sg | sg | | sg m ex]; try discriminate. eauto.
Qed.

Lemma ToInt32_not_finite (v : float) : is_finite v = false -> JS.ToInt32 v = 0.
Proof.
  unfold is_finite. intros H. apply negb_false_iff, orb_true_iff in H.
  unfold JS.ToInt32, JS.truncZ. destruct H as [H | H].
  - rewrite (is_nan_inv v H). reflexivity.
  - destruct (is_infinity_inv v H) as [sg ->]. reflexivity.
Qed.

Lemma ToInt32_idem (v : float) : JS.ToInt32 (JS.numOfZ (JS.ToInt32 v)) = JS.ToInt32 v.
Proof. apply ToInt32_numOfZ. apply wrap32_range. Qed.

(** X4. Whatever Numbers it is given, [combineRGBComponents] returns a
    32-bit signed integer; each channel counts only through its 32-bit
    integer value, and a channel that is NaN or infinite counts as 0. *)
Theorem combineRGBComponents_any_numbers (r g b : float) :
  (exists z, - 2 ^ 31 <= z < 2 ^ 31 /\ combineRGBComponents r g b = JS.numOfZ z)
  /\ combineRGBComponents r g b
     = combineRGBComponents (JS.numOfZ (JS.ToInt32 r)) (JS.numOfZ (JS.ToInt32 g))
         (JS.numOfZ (JS.ToInt32 b))
  /\ (is_finite r = false -> combineRGBComponents r g b = combineRGBComponents 0 g b)
  /\ (is_finite g = false -> combineRGBComponents r g b = combineRGBComponents r 0 b)
  /\ (is_finite b = false -> combineRGBComponents r g b = combineRGBComponents r g 0).
Proof.
  unfold combineRGBComponents, JS.or32, JS.shl32. split; [| split; [| split; [| split]]].
  - eexists. split; [| reflexivity].
    apply lor_int32; [apply lor_int32 |]; apply wrap32_range.
  - rewrite !ToInt32_idem. reflexivity.
  - intros H. rewrite (ToInt32_not_finite r H). reflexivity.
  - intros H. rewrite (ToInt32_not_finite g H). reflexivity.
  - intros H. rewrite (ToInt32_not_finite b H). reflexivity.
Qed.

(** *** normalize when the length is not a finite Number *)

Lemma length_not_negative (point : Point.t) :
  Spec.not_negative (Prim2SF (ParticleUtils.length point)).
Proof.
  unfold ParticleUtils.length. rewrite sqrt_spec, add_spec, !mul_spec.
  apply sqrt_not_negative, add_not_negative; apply square_not_negative.
Qed.

Lemma mul_nan_r (v : float) : (v * nan)%float = nan.
Proof.
  apply Prim2SF_inj. rewrite mul_spec. change (Prim2SF nan) with S754_nan.
  destruct (Prim2SF v); reflexivity.
Qed.

Lemma mul_zero_r_cases (v : float) :
  (v * 0)%float = 0%float \/ (v * 0)%float = (-0)%float \/ (v * 0)%float = nan.
Proof.
  destruct (Prim2SF v) as [sg | sg | | sg m ex] eqn:E.
  - destruct sg; [right; left | left]; apply Prim2SF_inj; rewrite mul_spec, E; reflexivity.
  - right. right. apply Prim2SF_inj. rewrite mul_spec, E. reflexivity.
  - right. right. apply Prim2SF_inj. rewrite mul_spec, E. reflexivity.
  - destruct sg; [right; left | left]; apply Prim2SF_inj; rewrite mul_spec, E; reflexivity.
Qed.

Lemma not_finite_not_negative (v : float) :
  is_finite v = false -> Spec.not_negative (Prim2SF v) -> v = infinity \/ v = nan.
Proof.
  unfold is_finite. intros H Hs. apply negb_false_iff, orb_true_iff in H as [H | H].
  - right. apply is_nan_inv. exact H.
  - left. destruct (is_infinity_inv v H) as [sg E]. rewrite E in Hs. cbn in Hs. subst sg.
    apply Prim2SF_inj. rewrite E. reflexivity.
Qed.

(** X5. When the length of the point is not finite, that length is
    [Infinity] or NaN and [normalize] leaves only zeros and NaNs in the
    point, never a unit vector. The squares overflow well before the
    coordinates do: [(2^600, 1)] becomes [(0, 0)]. *)
Theorem normalize_unbounded_length (point : Point.t) :
  is_finite (ParticleUtils.length point) = false ->
  let q := normalize point in
  (ParticleUtils.length point = infinity \/ ParticleUtils.length point = nan)
  /\ (Point.x q = 0%float \/ Point.x q = (-0)%float \/ Point.x q = nan)
  /\ (Point.y q = 0%float \/ Point.y q = (-0)%float \/ Point.y q = nan).
Proof.
  intros Hfin q.
  pose proof (not_finite_not_negative _ Hfin (length_not_negative point)) as Hlen.
  split; [exact Hlen |].
  unfold q, normalize. cbn [Point.x Point.y].
  destruct Hlen as [-> | ->].
  - change (1 / infinity)%float with 0%float. split; apply mul_zero_r_cases.
  - change (1 / nan)%float with nan. rewrite !mul_nan_r. auto.
Qed.

Lemma normalize_unbounded_length_witness :
  ParticleUtils.length (Point.mk 0x1p+600 1) = infinity
  /\ normalize (Point.mk 0x1p+600 1) = Point.mk 0 0.
Proof.
  destruct (normalize_unbounded_length (Point.mk 0x1p+600 1)) as (_ & _ & _).
  - vm_compute. reflexivity.
  - split; vm_compute; reflexivity.
Defined.

(** ** More on hexToRGB *)

(** *** combineRGBComponents after hexToRGB *)

Lemma land_shiftl_low (a b n : Z) :
  0 <= n -> 0 <= b < 2 ^ n -> Z.land (Z.shiftl a n) b = 0.
Proof.
  intros Hn Hb. apply Z.bits_inj'. intros k Hk.
  rewrite Z.land_spec, Z.bits_0.
  destruct (Z.lt_ge_cases k n) as [Hlt | Hge].
  - rewrite Z.shiftl_spec_low by exact Hlt. reflexivity.
  - destruct (Z.eq_dec b 0) as [-> | Hnz]; [rewrite Z.bits_0; apply andb_false_r |].
    rewrite (Z.bits_above_log2 b k); [apply andb_false_r | lia |].
    apply Z.lt_le_trans with n; [| exact Hge]. apply Z.log2_lt_pow2; lia.
Qed.

Lemma lor_shiftl_add (a b n : Z) :
  0 <= n -> 0 <= b < 2 ^ n -> Z.lor (Z.shiftl a n) b = a * 2 ^ n + b.
Proof.
  intros Hn Hb. pose proof (land_shiftl_low a b n Hn Hb) as Hl.
  rewrite <- (Z.lxor_lor _ _ Hl), <- (Z.add_nocarry_lxor _ _ Hl).
  rewrite Z.shiftl_mul_pow2 by exact Hn. reflexivity.
Qed.

Lemma combineRGBComponents_bytes (r g b : Z) :
  0 <= r <= 255 -> 0 <= g <= 255 -> 0 <= b <= 255 ->
  combineRGBComponents (JS.numOfZ r) (JS.numOfZ g) (JS.numOfZ b)
  = JS.numOfZ (65536 * r + 256 * g + b).
Proof.
  intros Hr Hg Hb. unfold combineRGBComponents, JS.or32, JS.shl32.
  rewrite !ToInt32_numOfZ by lia.
  change (16 mod 32) with 16. change (8 mod 32) with 8.
  rewrite (Z.shiftl_mul_pow2 g 8) by lia.
  rewrite (wrap32_small (g * 2 ^ 8)) by lia.
  rewrite (wrap32_small (Z.shiftl r 16)) by (rewrite Z.shiftl_mul_pow2; lia).
  rewrite (lor_shiftl_add r (g * 2 ^ 8) 16) by lia.
  replace (r * 2 ^ 16 + g * 2 ^ 8) with (Z.shiftl (256 * r + g) 8)
    by (rewrite Z.shiftl_mul_pow2; lia).
  rewrite lor_shiftl_add by lia. f_equal. lia.
Qed.

Lemma parseInt16_six (r1 r2 g1 g2 b1 b2 : ascii) :
  forallb Spec.isHex [r1; r2; g1; g2; b1; b2] = true ->
  JS.parseInt16 (Spec.rgbDigits r1 r2 g1 g2 b1 b2)
  = JS.numOfZ (65536 * (16 * Spec.hexValue r1 + Spec.hexValue r2)
               + 256 * (16 * Spec.hexValue g1 + Spec.hexValue g2)
               + (16 * Spec.hexValue b1 + Spec.hexValue b2)).
Proof.
  cbn [forallb]. rewrite !andb_true_iff.
  intros (Hr1 & Hr2 & Hg1 & Hg2 & Hb1 & Hb2 & _).
  destruct (isHex_facts r1 Hr1) as (Hw1 & _ & _ & _ & _ & Hd1).
  destruct (isHex_facts r2 Hr2) as (_ & _ & _ & _ & _ & Hd2).
  destruct (isHex_facts g1 Hg1) as (_ & _ & _ & _ & _ & Hd3).
  destruct (isHex_facts g2 Hg2) as (_ & _ & _ & _ & _ & Hd4).
  destruct (isHex_facts b1 Hb1) as (_ & _ & _ & _ & _ & Hd5).
  destruct (isHex_facts b2 Hb2) as (_ & _ & _ & _ & _ & Hd6).
  unfold JS.parseInt16, Spec.rgbDigits. cbn [JS.trimStart]. rewrite Hw1.
  rewrite stripSign_hex, stripHexPrefix_hex by assumption.
  cbn [JS.hexPrefix]. rewrite Hd1, Hd2, Hd3, Hd4, Hd5, Hd6. cbn [JS.hexPrefix].
  f_equal. lia.
Qed.

(** X6. For six hexadecimal digits, in each of the forms RRGGBB, #RRGGBB
    and 0xRRGGBB, [hexToRGB] gives three channels that
    [combineRGBComponents] packs back into the number the six digits
    write: [parseInt] of the digits in base 16. *)
Theorem combineRGBComponents_hexToRGB
    (r1 r2 g1 g2 b1 b2 : ascii) (output : option (list float)) (color : string) :
  forallb Spec.isHex [r1; r2; g1; g2; b1; b2] = true ->
  let rgb := Spec.rgbDigits r1 r2 g1 g2 b1 b2 in
  color = rgb \/ color = String "#" rgb \/ color = String "0" (String "x" rgb) ->
  exists r g b,
    hexToRGB color output = [r; g; b]
    /\ combineRGBComponents r g b = JS.parseInt16 rgb
    /\ combineRGBComponents r g b
       = JS.numOfZ (65536 * (16 * Spec.hexValue r1 + Spec.hexValue r2)
                    + 256 * (16 * Spec.hexValue g1 + Spec.hexValue g2)
                    + (16 * Spec.hexValue b1 + Spec.hexValue b2)).
Proof.
  intros Hhex rgb Hcolor.
  assert (Hhex8 : forallb Spec.isHex ["0"; "0"; r1; r2; g1; g2; b1; b2]%char = true)
    by exact Hhex.
  pose proof Hhex as Hall. cbn [forallb] in Hall. rewrite !andb_true_iff in Hall.
  destruct Hall as (Hr1 & Hr2 & Hg1 & Hg2 & Hb1 & Hb2 & _).
  destruct (isHex_facts r1 Hr1) as (_ & _ & _ & _ & R1 & _).
  destruct (isHex_facts r2 Hr2) as (_ & _ & _ & _ & R2 & _).
  destruct (isHex_facts g1 Hg1) as (_ & _ & _ & _ & G1 & _).
  destruct (isHex_facts g2 Hg2) as (_ & _ & _ & _ & G2 & _).
  destruct (isHex_facts b1 Hb1) as (_ & _ & _ & _ & B1 & _).
  destruct (isHex_facts b2 Hb2) as (_ & _ & _ & _ & B2 & _).
  exists (Spec.channel r1 r2), (Spec.channel g1 g2), (Spec.channel b1 b2).
  assert (Hcomb : combineRGBComponents (Spec.channel r1 r2) (Spec.channel g1 g2)
                    (Spec.channel b1 b2)
                  = JS.numOfZ (65536 * (16 * Spec.hexValue r1 + Spec.hexValue r2)
                               + 256 * (16 * Spec.hexValue g1 + Spec.hexValue g2)
                               + (16 * Spec.hexValue b1 + Spec.hexValue b2))).
  { unfold Spec.channel. apply combineRGBComponents_bytes; lia. }
  split; [| split; [| exact Hcomb]].
  - destruct Hcolor as [-> | [-> | ->]].
    + apply (hexToRGB_bare6 _ _ _ _ _ _ _ _ Hhex8).
    + apply (hexToRGB_hash6 _ _ _ _ _ _ _ _ Hhex8).
    + apply (hexToRGB_0x6 _ _ _ _ _ _ _ _ Hhex8).
  - rewrite Hcomb. symmetry. apply parseInt16_six. exact Hhex.
Qed.

Lemma combineRGBComponents_hexToRGB_witness :
  exists r g b,
    hexToRGB "#ff8040" None = [r; g; b]
    /\ combineRGBComponents r g b = JS.parseInt16 "ff8040".
Proof.
  destruct (combineRGBComponents_hexToRGB "f" "f" "8" "0" "4" "0" None "#ff8040")
    as (r & g & b & H1 & H2 & _).
  - reflexivity.
  - right. left. reflexivity.
  - exists r, g, b. split; [exact H1 | exact H2].
Defined.

(** *** hexToRGB on strings that are not one of the six forms *)

Lemma substring_past_end (n m : nat) (str : string) :
  (String.length str <= n)%nat -> String.substring n m str = EmptyString.
Proof.
  revert n m. induction str as [| c rest IH]; intros n m Hn.
  - destruct n, m; reflexivity.
  - destruct n as [| n]; [cbn in Hn; lia |]. cbn. apply IH. cbn in Hn. lia.
Qed.

Lemma substring_length_le (n m : nat) (str : string) :
  (String.length (String.substring n m str) <= m)%nat.
Proof.
  revert n m. induction str as [| c rest IH]; intros n m.
  - destruct n, m; cbn; lia.
  - destruct n as [| n].
    + destruct m as [| m]; [cbn; lia |]. cbn. specialize (IH 0%nat m). lia.
    + cbn. apply IH.
Qed.

Lemma substring_length (n m : nat) (str : string) :
  (n + m <= String.length str)%nat ->
  String.length (String.substring n m str) = m.
Proof.
  revert n m. induction str as [| c rest IH]; intros n m H.
  - cbn in H. assert (n = 0%nat) as -> by lia. assert (m = 0%nat) as -> by lia. reflexivity.
  - destruct n as [| n].
    + destruct m as [| m]; [reflexivity |]. cbn. f_equal. apply (IH 0%nat m). cbn in H. lia.
    + cbn. apply IH. cbn in H. lia.
Qed.

Lemma substrFrom_length (n : nat) (str : string) :
  String.length (JS.substrFrom n str) = (String.length str - n)%nat.
Proof.
  unfold JS.substrFrom.
  destruct (Nat.le_gt_cases n (String.length str)) as [Hle | Hgt].
  - apply substring_length. lia.
  - rewrite substring_past_end by lia. cbn. lia.
Qed.

Lemma parseInt16_empty : JS.parseInt16 EmptyString = nan.
Proof. reflexivity. Qed.

(** X7. For every string, [hexToRGB] returns three or four entries; it
    returns three when the string is shorter than 8 characters or longer
    than 10, since a prefix takes at most two. What the array to reuse
    held before is gone. *)
Theorem hexToRGB_result_length (color : string) (output : option (list float)) :
  (List.length (hexToRGB color output) = 3%nat
   \/ List.length (hexToRGB color output) = 4%nat)
  /\ ((String.length color < 8)%nat \/ (10 < String.length color)%nat ->
      List.length (hexToRGB color output) = 3%nat)
  /\ (forall old, hexToRGB color (Some old) = hexToRGB color None).
Proof.
  assert (Hlen : forall c out,
            List.length (hexToRGB c out)
            = if (String.length
                    (if String.eqb (JS.charAt 0 c) "#" then JS.substrFrom 1 c
                     else if (JS.indexOf "0x" c =? 0)%Z then JS.substrFrom 2 c else c)
                  =? 8)%nat
              then 4%nat else 3%nat).
  { intros c out. unfold hexToRGB.
    set (body := if String.eqb (JS.charAt 0 c) "#" then JS.substrFrom 1 c
                 else if (JS.indexOf "0x" c =? 0)%Z then JS.substrFrom 2 c else c).
    destruct (Nat.eqb_spec (String.length body) 8) as [H8 | H8].
    - assert (Ha : String.eqb (JS.substr 0 2 body) "" = false).
      { apply String.eqb_neq. intros He.
        pose proof (substring_length 0 2 body ltac:(lia)) as Hl.
        unfold JS.substr in He. rewrite He in Hl. discriminate Hl. }
      rewrite Ha. destruct out; reflexivity.
    - destruct out; reflexivity. }
  split; [| split].
  - rewrite Hlen. destruct (_ =? 8)%nat; [right | left]; reflexivity.
  - intros Hshort. rewrite Hlen.
    destruct (Nat.eqb_spec
                (String.length
                   (if String.eqb (JS.charAt 0 color) "#" then JS.substrFrom 1 color
                    else if (JS.indexOf "0x" color =? 0)%Z then JS.substrFrom 2 color
                    else color)) 8) as [H8 | _]; [| reflexivity].
    exfalso. revert H8.
    destruct (String.eqb (JS.charAt 0 color) "#");
      [| destruct (JS.indexOf "0x" color =? 0)];
      rewrite ?substrFrom_length; lia.
  - intros old. reflexivity.
Qed.

Lemma hexToRGB_result_length_witness :
  List.length (hexToRGB "#abc" None) = 3%nat.
Proof.
  apply (hexToRGB_result_length "#abc" None). left. cbn. lia.
Defined.

Lemma hexToRGB_hash_body (body : string) (output : option (list float)) :
  String.length body <> 8%nat ->
  hexToRGB (String "#" body) output
  = [JS.parseInt16 (JS.substr 0 2 body); JS.parseInt16 (JS.substr 2 2 body);
     JS.parseInt16 (JS.substr 4 2 body)].
Proof.
  intros Hlen. unfold hexToRGB.
  cbn [JS.charAt String.get String.eqb Ascii.eqb Bool.eqb].
  rewrite substrFrom_S, substrFrom_0.
  destruct (Nat.eqb_spec (String.length body) 8) as [H8 | _]; [contradiction |].
  destruct output; reflexivity.
Qed.

(** X8. Nothing checks the length of the string: the empty string and "#"
    give three NaNs, a body of at most four characters after "#" gives NaN
    for blue, and one of at most two characters gives NaN for green as
    well. *)
Theorem hexToRGB_too_short (body : string) (output : option (list float)) :
  hexToRGB "" output = [nan; nan; nan]
  /\ hexToRGB "#" output = [nan; nan; nan]
  /\ ((String.length body <= 4)%nat ->
      exists r g, hexToRGB (String "#" body) output = [r; g; nan])
  /\ ((String.length body <= 2)%nat ->
      exists r, hexToRGB (String "#" body) output = [r; nan; nan]).
Proof.
  split; [destruct output; reflexivity |].
  split; [destruct output; reflexivity |].
  split.
  - intros Hlen. rewrite hexToRGB_hash_body by lia.
    unfold JS.substr. rewrite (substring_past_end 4 2 body) by lia. eauto.
  - intros Hlen. rewrite hexToRGB_hash_body by lia.
    unfold JS.substr.
    rewrite (substring_past_end 4 2 body), (substring_past_end 2 2 body) by lia. eauto.
Qed.

Lemma hexToRGB_too_short_witness :
  exists r g, hexToRGB "#12ab" None = [r; g; nan].
Proof.
  apply (hexToRGB_too_short "12ab" None). cbn. lia.
Defined.

Lemma parseInt16_single (c : ascii) :
  Spec.isHex c = true ->
  JS.parseInt16 (String c EmptyString) = JS.numOfZ (Spec.hexValue c).
Proof.
  intros H. destruct (isHex_facts c H) as (Hw & _ & _ & _ & _ & Hd).
  unfold JS.parseInt16. cbn [JS.trimStart]. rewrite Hw.
  rewrite stripSign_hex by assumption.
  assert (Hs : JS.stripHexPrefix (String c EmptyString) = String c EmptyString)
    by (each_char c; reflexivity).
  rewrite Hs. cbn [JS.hexPrefix]. rewrite Hd. reflexivity.
Qed.

(** X9. A three-digit colour is not expanded: "#abc" and "abc" give the
    channels [0xab], [0xc] and NaN. *)
Theorem hexToRGB_three_digits (a b c : ascii) (output : option (list float)) :
  forallb Spec.isHex [a; b; c] = true ->
  hexToRGB (String "#" (String a (String b (String c EmptyString)))) output
  = [Spec.channel a b; JS.numOfZ (Spec.hexValue c); nan]
  /\ hexToRGB (String a (String b (String c EmptyString))) output
     = [Spec.channel a b; JS.numOfZ (Spec.hexValue c); nan].
Proof.
  cbn [forallb]. rewrite !andb_true_iff. intros (Ha & Hb & Hc & _).
  split.
  - rewrite hexToRGB_hash_body by (cbn; lia).
    cbn [JS.substr String.substring].
    rewrite parseInt16_pair, parseInt16_single by assumption. reflexivity.
  - destruct (isHex_facts a Ha) as (_ & Hs & _).
    unfold hexToRGB.
    cbn [JS.charAt String.get String.eqb]. rewrite Hs. cbn [andb].
    rewrite indexOf_0x_hex by assumption.
    cbn. rewrite parseInt16_pair, parseInt16_single by assumption.
    destruct output; reflexivity.
Qed.

Lemma hexToRGB_three_digits_witness :
  hexToRGB "#fa3" None = [250; 3; nan]%float.
Proof.
  apply (hexToRGB_three_digits "f" "a" "3" None). reflexivity.
Defined.

Lemma indexOf_0x_upper (rest : string) :
  (JS.indexOf "0x" (String "0" (String "X" rest)) =? 0) = false.
Proof.
  unfold JS.indexOf. rewrite index_0_cons.
  assert (Hp : String.prefix "0x" (String "0" (String "X" rest)) = false) by reflexivity.
  rewrite Hp. destruct (String.index 0 "0x" (String "X" rest)); reflexivity.
Qed.

(** X10. Only one prefix is removed, and "0x" only in lower case. "#0x"
    and "0X" before six digits leave eight characters, so the prefix is
    read as an alpha channel and gives NaN in fourth place; "0X" before
    eight digits and "##" before six shift the channels and give NaN for
    red. *)
Theorem hexToRGB_mixed_prefixes
    (a1 a2 r1 r2 g1 g2 b1 b2 : ascii) (output : option (list float)) :
  forallb Spec.isHex [a1; a2; r1; r2; g1; g2; b1; b2] = true ->
  let rgb := Spec.rgbDigits r1 r2 g1 g2 b1 b2 in
  let argb := Spec.argbDigits a1 a2 r1 r2 g1 g2 b1 b2 in
  hexToRGB (String "#" (String "0" (String "x" rgb))) output
  = [Spec.channel r1 r2; Spec.channel g1 g2; Spec.channel b1 b2; nan]
  /\ hexToRGB (String "0" (String "X" rgb)) output
     = [Spec.channel r1 r2; Spec.channel g1 g2; Spec.channel b1 b2; nan]
  /\ hexToRGB (String "0" (String "X" argb)) output
     = [nan; Spec.channel a1 a2; Spec.channel r1 r2]
  /\ hexToRGB (String "#" (String "#" rgb)) output
     = [nan; Spec.channel r2 g1; Spec.channel g2 b1].
Proof.
  intros Hhex rgb argb.
  destruct (hex_each _ _ _ _ _ _ _ _ Hhex)
    as (Ha1 & Ha2 & Hr1 & Hr2 & Hg1 & Hg2 & Hb1 & Hb2).
  unfold rgb, argb, Spec.argbDigits, Spec.rgbDigits.
  split; [| split; [| split]].
  - unfold hexToRGB. cbn.
    rewrite (parseInt16_pair r1 r2), (parseInt16_pair g1 g2), (parseInt16_pair b1 b2)
      by assumption.
    destruct output; reflexivity.
  - unfold hexToRGB. cbn [JS.charAt String.get String.eqb Ascii.eqb Bool.eqb].
    rewrite indexOf_0x_upper. cbn.
    rewrite (parseInt16_pair r1 r2), (parseInt16_pair g1 g2), (parseInt16_pair b1 b2)
      by assumption.
    destruct output; reflexivity.
  - unfold hexToRGB. cbn [JS.charAt String.get String.eqb Ascii.eqb Bool.eqb].
    rewrite indexOf_0x_upper. cbn.
    rewrite (parseInt16_pair a1 a2), (parseInt16_pair r1 r2) by assumption.
    destruct output; reflexivity.
  - rewrite hexToRGB_hash_body by (cbn; lia).
    cbn [JS.substr String.substring].
    rewrite (parseInt16_pair r2 g1), (parseInt16_pair g2 b1) by assumption.
    reflexivity.
Qed.

Lemma hexToRGB_mixed_prefixes_witness :
  hexToRGB "#0xff8040" None = [255; 128; 64; nan]%float
  /\ hexToRGB "0Xff8040" None = [255; 128; 64; nan]%float.
Proof.
  destruct (hexToRGB_mixed_prefixes "0" "0" "f" "f" "8" "0" "4" "0" None eq_refl)
    as (H1 & H2 & _).
  split; [exact H1 | exact H2].
Defined.

(** A character that ends the digits [parseInt] reads and cannot be taken
    for the [x] of a [0x] prefix. *)
Lemma stripHexPrefix_no_x (c1 c2 : ascii) (rest : string) :
  Ascii.eqb c2 "x" = false -> Ascii.eqb c2 "X" = false ->
  JS.stripHexPrefix (String c1 (String c2 rest)) = String c1 (String c2 rest).
Proof.
  intros Hx HX. each_char c1; try reflexivity.
  each_char c2; try discriminate Hx; try discriminate HX; reflexivity.
Qed.

Lemma parseInt16_first_digit (h c : ascii) :
  Spec.isHex h = true -> Spec.isHex c = false ->
  Ascii.eqb c "x" = false -> Ascii.eqb c "X" = false ->
  JS.parseInt16 (String h (String c EmptyString)) = JS.numOfZ (Spec.hexValue h).
Proof.
  intros Hh Hc Hx HX.
  destruct (isHex_facts h Hh) as (Hw & _ & _ & _ & _ & Hd).
  unfold JS.parseInt16. cbn [JS.trimStart]. rewrite Hw.
  rewrite stripSign_hex by assumption.
  rewrite stripHexPrefix_no_x by assumption.
  cbn [JS.hexPrefix]. rewrite Hd.
  unfold Spec.isHex in Hc. destruct (JS.hexDigit c); [discriminate Hc |].
  reflexivity.
Qed.

Lemma parseInt16_minus (h : ascii) :
  Spec.isHex h = true ->
  JS.parseInt16 (String "-" (String h EmptyString)) = (- JS.numOfZ (Spec.hexValue h))%float.
Proof.
  intros Hh. destruct (isHex_facts h Hh) as (_ & _ & _ & _ & _ & Hd).
  unfold JS.parseInt16.
  change (JS.trimStart (String "-" (String h EmptyString)))
    with (String "-" (String h EmptyString)).
  cbn [JS.stripSign].
  assert (Hs : JS.stripHexPrefix (String h EmptyString) = String h EmptyString)
    by (each_char h; reflexivity).
  rewrite Hs. cbn [JS.hexPrefix]. rewrite Hd. reflexivity.
Qed.

(** X11. The digits are not validated. A pair whose second character is
    not a hexadecimal digit has the value of its first digit; a pair that
    is a minus sign and a digit is a negative number; the pairs "0x" and
    "0X" are NaN. *)
Theorem hexToRGB_lenient_digits
    (h1 h2 h3 c1 c2 c3 : ascii) (output : option (list float)) :
  forallb Spec.isHex [h1; h2; h3] = true ->
  forallb (fun c => negb (Spec.isHex c) && negb (Ascii.eqb c "x") && negb (Ascii.eqb c "X"))
    [c1; c2; c3] = true ->
  hexToRGB (String "#" (Spec.rgbDigits h1 c1 h2 c2 h3 c3)) output
  = [JS.numOfZ (Spec.hexValue h1); JS.numOfZ (Spec.hexValue h2);
     JS.numOfZ (Spec.hexValue h3)]
  /\ hexToRGB (String "#" (Spec.rgbDigits "-" h1 "-" h2 "-" h3)) output
     = [(- JS.numOfZ (Spec.hexValue h1))%float; (- JS.numOfZ (Spec.hexValue h2))%float;
        (- JS.numOfZ (Spec.hexValue h3))%float]
  /\ hexToRGB (String "#" (Spec.rgbDigits "0" "x" "0" "X" h3 c3)) output
     = [nan; nan; JS.numOfZ (Spec.hexValue h3)].
Proof.
  cbn [forallb]. rewrite !andb_true_iff, !negb_true_iff.
  intros (Hh1 & Hh2 & Hh3 & _)
    (((Hc1 & Hx1) & HX1) & ((Hc2 & Hx2) & HX2) & ((Hc3 & Hx3) & HX3) & _).
  unfold Spec.rgbDigits. split; [| split].
  - rewrite hexToRGB_hash_body by (cbn; lia).
    cbn [JS.substr String.substring].
    rewrite !parseInt16_first_digit by assumption. reflexivity.
  - rewrite hexToRGB_hash_body by (cbn; lia).
    cbn [JS.substr String.substring].
    rewrite !parseInt16_minus by assumption. reflexivity.
  - rewrite hexToRGB_hash_body by (cbn; lia).
    cbn [JS.substr String.substring].
    rewrite (parseInt16_first_digit h3 c3) by assumption. reflexivity.
Qed.

Lemma hexToRGB_lenient_digits_witness :
  hexToRGB "#1g2h3i" None = [1; 2; 3]%float
  /\ hexToRGB "#-1-2-3" None = [-1; -2; -3]%float.
Proof.
  destruct (hexToRGB_lenient_digits "1" "2" "3" "g" "h" "i" None eq_refl eq_refl)
    as (H1 & H2 & _).
  split; [exact H1 | exact H2].
Defined.

(** ** More on generateEase *)

(** *** generateEase: when the ease raises, and NaN *)

Lemma easeSegment_nonempty (segments : list Segment.t) (i : Z) :
  segments <> [] -> is_Some (easeSegment segments i).
Proof.
  intros Hne. unfold easeSegment.
  destruct (JS.arrayGet segments i) as [sg |] eqn:E; [eauto |].
  rewrite arrayGet_last. destruct segments as [| a l]; [congruence |].
  rewrite last_is_Some. discriminate.
Qed.

Lemma easeSegment_zero (sg : Segment.t) (rest : list Segment.t) :
  easeSegment (sg :: rest) 0 = Some sg.
Proof. reflexivity. Qed.

(** X12. The ease function raises (it reads a field of [undefined])
    exactly when the list of segments is empty, at every time; with at
    least one segment it returns a Number at every time, whatever the
    index, since the last segment stands in. *)
Theorem generateEase_raises_iff_empty (segments : list Segment.t) (time : float) :
  (generateEase segments time = None <-> segments = [])
  /\ (is_Some (generateEase segments time) <-> segments <> []).
Proof.
  assert (Hempty : generateEase [] time = None).
  { unfold generateEase, easeSegment, JS.arrayGet. cbn [List.length].
    destruct (easeIndex 0 time <? 0); reflexivity. }
  assert (Hsome : segments <> [] -> is_Some (generateEase segments time)).
  { intros Hne. unfold generateEase.
    destruct (easeSegment_nonempty segments (easeIndex (List.length segments) time) Hne)
      as [sg ->]. eauto. }
  split; split.
  - intros Hnone. destruct segments as [| a l]; [reflexivity |].
    destruct (Hsome ltac:(discriminate)) as [v Hv]. congruence.
  - intros ->. exact Hempty.
  - intros [v Hv] ->. congruence.
  - exact Hsome.
Qed.

Lemma mul_nan_l (v : float) : (nan * v)%float = nan.
Proof.
  apply Prim2SF_inj. rewrite mul_spec. change (Prim2SF nan) with S754_nan. reflexivity.
Qed.

Lemma sub_nan_l (v : float) : (nan - v)%float = nan.
Proof.
  apply Prim2SF_inj. rewrite sub_spec. change (Prim2SF nan) with S754_nan. reflexivity.
Qed.

Lemma add_nan_r (v : float) : (v + nan)%float = nan.
Proof.
  apply Prim2SF_inj. rewrite add_spec. change (Prim2SF nan) with S754_nan.
  destruct (Prim2SF v); reflexivity.
Qed.

(** X13. At the time NaN the ease of a non-empty list is NaN: the index
    is 0, but the position inside the segment is NaN. *)
Theorem generateEase_nan_time (segments : list Segment.t) :
  segments <> [] -> generateEase segments nan = Some nan.
Proof.
  intros Hne. destruct segments as [| sg rest]; [congruence |].
  unfold generateEase, easeIndex. rewrite mul_nan_r.
  change (JS.ToInt32 nan) with 0. rewrite easeSegment_zero.
  rewrite sub_nan_l, mul_nan_l, mul_nan_l, add_nan_r. reflexivity.
Qed.

Lemma generateEase_nan_time_witness :
  generateEase [Segment.mk 0 0.5 1] nan = Some nan.
Proof. apply (generateEase_nan_time [Segment.mk 0 0.5 1]). discriminate. Defined.

(** *** generateEase at time 0 *)

Lemma is_finite_SF (v : float) :
  is_finite v
  = match Prim2SF v with
    | S754_zero _ | S754_finite _ _ _ => true
    | _ => false
    end.
Proof.
  unfold is_finite, is_nan, is_infinity.
  rewrite !FloatAxioms.eqb_spec, abs_spec.
  change (Prim2SF infinity) with (S754_infinity false).
  destruct (Prim2SF v) as [sg | sg | | sg m ex] eqn:E.
  - reflexivity.
  - destruct sg; reflexivity.
  - reflexivity.
  - rewrite SFeqb_refl by discriminate. reflexivity.
Qed.

Lemma shr_any_record (r : shr_record) (e n : Z) :
  0 <= shr_m r ->
  shr_m (fst (shr r e n)) = shr_m r / 2 ^ Z.max n 0
  /\ snd (shr r e n) = e + Z.max n 0.
Proof.
  intros Hm. destruct n as [| k | k]; cbn [shr fst snd].
  - cbn. rewrite Z.div_1_r. lia.
  - rewrite shr_m_iter by exact Hm. rewrite Z.max_l by lia. lia.
  - rewrite Z.max_r by lia. cbn. rewrite Z.div_1_r. lia.
Qed.

Lemma shr_m_of_loc (m : Z) (l : location) : shr_m (shr_record_of_loc m l) = m.
Proof. destruct l as [| []]; reflexivity. Qed.

(** A value [M * 2^e] (or just above it, by the location) below an integer
    [N] rounds to [+0] or to a positive finite binary64 value. *)
Lemma binary_round_aux_small (M e N : Z) (l : location) :
  0 <= M -> e <= 0 -> 0 < N < 2 ^ 32 -> M < N * 2 ^ (- e) ->
  binary_round_aux prec emax false M e l = S754_zero false
  \/ exists m ex, binary_round_aux prec emax false M e l = S754_finite false m ex.
Proof.
  intros HM0 He HN HM.
  unfold binary_round_aux, shr_fexp.
  set (n1 := fexp prec emax (Zdigits2 M + e) - e).
  destruct (shr_any_record (shr_record_of_loc M l) e n1) as [Hm1 He1];
    [rewrite shr_m_of_loc; lia |].
  rewrite shr_m_of_loc in Hm1.
  destruct (shr (shr_record_of_loc M l) e n1) as [r1 e1].
  cbn [fst snd] in Hm1, He1.
  set (m2 := round_nearest_even (shr_m r1) (loc_of_shr_record r1)).
  pose proof (round_nearest_even_bounds (shr_m r1) (loc_of_shr_record r1)) as Hr.
  fold m2 in Hr.
  set (n2 := fexp prec emax (Zdigits2 m2 + e1) - e1).
  assert (Hpow32 : forall x, x <= 0 -> N * 2 ^ (- x) < 2 ^ (32 - x)).
  { intros x Hx. replace (32 - x) with (32 + - x) by lia.
    rewrite Z.pow_add_r by lia. apply Z.mul_lt_mono_pos_r; [| lia].
    apply Z.pow_pos_nonneg; lia. }
  assert (Hd1 : Zdigits2 M + e <= 32).
  { pose proof (Hpow32 e He).
    pose proof (Zdigits2_bound M (32 - e)). lia. }
  assert (He1' : e1 <= 0 /\ - e = - e1 + Z.max n1 0 /\ 0 <= Z.max n1 0).
  { unfold n1 in *. rewrite fexp_binary64 in *. lia. }
  destruct He1' as (He1n & Hsplit1 & Ha1).
  assert (Hm1' : 0 <= shr_m r1 < N * 2 ^ (- e1)).
  { rewrite Hm1. split; [apply Z.div_pos; [lia | apply Z.pow_pos_nonneg; lia] |].
    apply Z.div_lt_upper_bound; [apply Z.pow_pos_nonneg; lia |].
    rewrite Hsplit1, Z.pow_add_r in HM by lia. lia. }
  assert (Hm2 : 0 <= m2 <= N * 2 ^ (- e1)) by lia.
  assert (Hd2 : Zdigits2 m2 + e1 <= 32).
  { pose proof (Hpow32 e1 He1n).
    pose proof (Zdigits2_bound m2 (32 - e1)). lia. }
  destruct (shr_any_record (shr_record_of_loc m2 loc_Exact) e1 n2) as [Hm3 He3];
    [rewrite shr_m_of_loc; lia |].
  destruct (shr (shr_record_of_loc m2 loc_Exact) e1 n2) as [r3 e3].
  cbn [fst snd] in Hm3, He3.
  assert (He3' : e3 <= 0).
  { unfold n2 in *. rewrite fexp_binary64 in *. lia. }
  assert (Hm3' : 0 <= shr_m r3).
  { rewrite Hm3, shr_m_of_loc. apply Z.div_pos; [lia | apply Z.pow_pos_nonneg; lia]. }
  destruct (shr_m r3) as [| m | m].
  - left. reflexivity.
  - right. destruct (Z.leb_spec e3 (emax - prec)) as [_ | Hbig];
      [eauto | unfold emax, prec in Hbig; lia].
  - lia.
Qed.

(** The quotient digits the division computes before rounding. *)
Lemma SFdiv_core_bounds (m1 e1 m2 e2 : Z) :
  0 < m1 -> 0 < m2 ->
  forall q e' l, SFdiv_core_binary prec emax m1 e1 m2 e2 = (q, e', l) ->
  0 <= q /\ e' <= e1 - e2 /\ q * m2 <= m1 * 2 ^ (e1 - e2 - e').
Proof.
  intros H1 H2 q e' l. unfold SFdiv_core_binary.
  set (e0 := Z.min (fexp prec emax (Zdigits2 m1 + e1 - (Zdigits2 m2 + e2))) (e1 - e2)).
  assert (He0 : e0 <= e1 - e2) by apply Z.le_min_r.
  set (s := e1 - e2 - e0).
  assert (Hs : 0 <= s) by (unfold s; lia).
  set (m' := match s with Z.pos _ => Z.shiftl m1 s | 0 => m1 | Z.neg _ => 0 end).
  assert (Hm' : m' = m1 * 2 ^ s).
  { unfold m'. destruct s as [| p | p]; [cbn; lia | | lia].
    apply Z.shiftl_mul_pow2. lia. }
  assert (Hpos : 0 < 2 ^ s) by (apply Z.pow_pos_nonneg; lia).
  pose proof (Z_div_mod m' m2 ltac:(lia)) as Hdiv.
  destruct (Z.div_eucl m' m2) as [q0 r0]. destruct Hdiv as [Heq Hr].
  intros [= <- <- _]. fold s. rewrite <- Hm'.
  split; [nia |]. split; [exact He0 | nia].
Qed.

(** The reciprocal of an array length is [+0] or a positive finite Number. *)
Lemma reciprocal_of_length (n : Z) :
  0 < n < 2 ^ 32 ->
  Prim2SF (1 / JS.numOfZ n) = S754_zero false
  \/ exists m ex, Prim2SF (1 / JS.numOfZ n) = S754_finite false m ex.
Proof.
  intros Hn.
  destruct (Prim2SF_numOfZ_pos n) as (m & ex & Hq & _ & Hex & Hm); [lia |].
  pose proof (Prim2SF_valid (JS.numOfZ n)) as Hv. rewrite Hq in Hv.
  cbn [valid_binary] in Hv. unfold bounded, canonical_mantissa in Hv.
  apply andb_true_iff in Hv as [Hc _]. apply Z.eqb_eq in Hc.
  rewrite fexp_binary64 in Hc.
  pose proof (digits2_pos_bounds m) as [_ Hhi].
  assert (Hm53 : Z.pos m < 2 ^ 53).
  { eapply Z.lt_le_trans; [exact Hhi |]. apply Z.pow_le_mono_r; lia. }
  assert (Hpow : 0 < 2 ^ (- ex)) by (apply Z.pow_pos_nonneg; lia).
  assert (Hex52 : - 52 <= ex).
  { destruct (Z.le_gt_cases (-52) ex) as [H | H]; [exact H | exfalso].
    assert (2 ^ 53 <= 2 ^ (- ex)) by (apply Z.pow_le_mono_r; lia). nia. }
  rewrite div_spec, Prim2SF_one, Hq. unfold SF64div, SFdiv. cbn [xorb].
  destruct (SFdiv_core_binary prec emax (Z.pos 4503599627370496) (-52) (Z.pos m) ex)
    as [[q e'] l] eqn:Hcore.
  destruct (SFdiv_core_bounds (Z.pos 4503599627370496) (-52) (Z.pos m) ex
              ltac:(lia) ltac:(lia) q e' l Hcore)
    as (Hq0 & He' & Hqm).
  apply (binary_round_aux_small q e' 2 l); [exact Hq0 | lia | lia |].
  assert (Hpe : 0 < 2 ^ (- e')) by (apply Z.pow_pos_nonneg; lia).
  assert (Hle : q * 2 ^ (- ex) <= 2 ^ (- ex) * 2 ^ (- e')).
  { rewrite <- Z.pow_add_r by lia.
    replace (- ex + - e') with (52 + (-52 - ex - e')) by lia.
    rewrite Z.pow_add_r by lia.
    change (Z.pos 4503599627370496) with (2 ^ 52) in Hqm.
    eapply Z.le_trans; [| exact Hqm]. rewrite Hm. nia. }
  assert (q <= 2 ^ (- e')) by nia. lia.
Qed.

Lemma mul_zero_l_pos (v : float) :
  Prim2SF v = S754_zero false \/ (exists m ex, Prim2SF v = S754_finite false m ex) ->
  (0 * v)%float = 0%float.
Proof.
  intros H. apply Prim2SF_inj. rewrite mul_spec. change (Prim2SF 0) with (S754_zero false).
  destruct H as [-> | (m & ex & ->)]; reflexivity.
Qed.

Lemma mul_zero_r_pos (v : float) :
  Prim2SF v = S754_zero false \/ (exists m ex, Prim2SF v = S754_finite false m ex) ->
  (v * 0)%float = 0%float.
Proof.
  intros H. apply Prim2SF_inj. rewrite mul_spec. change (Prim2SF 0) with (S754_zero false).
  destruct H as [-> | (m & ex & ->)]; reflexivity.
Qed.

Lemma add_finite_inv (a b : float) :
  is_finite (a + b) = true -> is_finite a = true /\ is_finite b = true.
Proof.
  rewrite !is_finite_SF, add_spec.
  destruct (Prim2SF a) as [sa | sa | | sa ma ea], (Prim2SF b) as [sb | sb | | sb mb eb];
    cbn; try (intros H; discriminate H); try (split; reflexivity);
    destruct sa, sb; cbn; intros H; try discriminate H; split; reflexivity.
Qed.

Lemma sub_finite_inv (a b : float) :
  is_finite (a - b) = true -> is_finite a = true /\ is_finite b = true.
Proof.
  rewrite !is_finite_SF, sub_spec.
  destruct (Prim2SF a) as [sa | sa | | sa ma ea], (Prim2SF b) as [sb | sb | | sb mb eb];
    cbn; try (intros H; discriminate H); try (split; reflexivity);
    destruct sa, sb; cbn; intros H; try discriminate H; split; reflexivity.
Qed.

Lemma mul_two_finite_inv (d : float) : is_finite (2 * d) = true -> is_finite d = true.
Proof.
  rewrite !is_finite_SF, mul_spec.
  change (Prim2SF 2) with (S754_finite false 4503599627370496 (-51)).
  destruct (Prim2SF d) as [sd | sd | | sd md ed]; cbn; intros H;
    try discriminate H; reflexivity.
Qed.

Lemma mul_zero_finite (v : float) :
  is_finite v = true -> exists sg, Prim2SF (0 * v) = S754_zero sg.
Proof.
  rewrite is_finite_SF, mul_spec. change (Prim2SF 0) with (S754_zero false).
  destruct (Prim2SF v) as [sv | sv | | sv mv ev]; cbn; intros H;
    try discriminate H; eauto.
Qed.

Lemma add_zero_eqb (v z : float) (sg : bool) :
  is_finite v = true -> Prim2SF z = S754_zero sg -> (v + z =? v)%float = true.
Proof.
  rewrite is_finite_SF, FloatAxioms.eqb_spec, add_spec. intros Hv ->.
  destruct (Prim2SF v) as [sv | sv | | sv mv ev]; try discriminate Hv.
  - destruct sv, sg; reflexivity.
  - cbn [SF64add SFadd]. apply SFeqb_refl. discriminate.
Qed.

(** X14. At time 0 the ease of a non-empty list (of fewer than 2^32
    segments, as every array is) reads the first segment at the position
    0 and returns [s + 0 * (2 * (cp - s) + 0 * (e - s))]; when that sum
    in brackets is finite, this equals the start value [s] of the first
    segment. *)
Theorem generateEase_at_zero (sg : Segment.t) (rest : list Segment.t) :
  Z.of_nat (List.length (sg :: rest)) < 2 ^ 32 ->
  let bracket :=
    (2 * (Segment.cp sg - Segment.s sg) + 0 * (Segment.e sg - Segment.s sg))%float in
  generateEase (sg :: rest) 0 = Some (Segment.s sg + 0 * bracket)%float
  /\ (is_finite bracket = true ->
      exists v, generateEase (sg :: rest) 0 = Some v
                /\ (v =? Segment.s sg)%float = true).
Proof.
  intros Hlen bracket.
  set (n := Z.of_nat (List.length (sg :: rest))) in *.
  assert (Hn : 0 < n < 2 ^ 32) by (unfold n in *; cbn [List.length] in *; lia).
  assert (Hqty : Prim2SF (JS.numOfZ n) = S754_zero false
                 \/ exists m ex, Prim2SF (JS.numOfZ n) = S754_finite false m ex).
  { destruct (Prim2SF_numOfZ_pos n) as (m & ex & Hq & _); [lia | eauto]. }
  assert (Hval : generateEase (sg :: rest) 0 = Some (Segment.s sg + 0 * bracket)%float).
  { unfold generateEase, easeIndex. fold n.
    rewrite (mul_zero_r_pos _ Hqty). change (JS.ToInt32 0) with 0.
    rewrite easeSegment_zero. change (JS.numOfZ 0) with 0%float.
    rewrite (mul_zero_l_pos _ (reciprocal_of_length n Hn)).
    change (0 - 0)%float with 0%float.
    rewrite (mul_zero_l_pos _ Hqty). reflexivity. }
  split; [exact Hval |].
  intros Hfin. eexists. split; [exact Hval |].
  destruct (mul_zero_finite bracket Hfin) as [sz Hz].
  apply (add_zero_eqb _ _ sz); [| exact Hz].
  unfold bracket in Hfin.
  apply add_finite_inv in Hfin as [Hfin _].
  apply mul_two_finite_inv in Hfin.
  apply sub_finite_inv in Hfin as [_ Hfin]. exact Hfin.
Qed.

Lemma generateEase_at_zero_witness :
  exists v,
    generateEase [Segment.mk 0.25 0.5 0.75; Segment.mk 0.75 0.5 1] 0 = Some v
    /\ (v =? 0.25)%float = true.
Proof.
  destruct (generateEase_at_zero (Segment.mk 0.25 0.5 0.75) [Segment.mk 0.75 0.5 1])
    as (_ & H).
  - cbn. lia.
  - apply H. vm_compute. reflexivity.
Defined.

(** ** More on getBlendMode *)

(** *** getBlendMode: what it can return *)

Lemma lookupOrNormal_cases (BLEND_MODES : gmap string Z) (key : string) :
  lookupOrNormal BLEND_MODES key = BLEND_MODES !! "NORMAL"
  \/ exists v, BLEND_MODES !! key = Some v /\ v <> 0
               /\ lookupOrNormal BLEND_MODES key = Some v.
Proof.
  unfold lookupOrNormal. destruct (BLEND_MODES !! key) as [v |]; [| left; reflexivity].
  destruct (Z.eqb_spec v 0) as [_ | Hv]; [left; reflexivity |].
  right. exists v. repeat split. exact Hv.
Qed.

(** X15. [getBlendMode] returns either the table's entry for NORMAL or a
    non-zero value that the table holds for some key. So it returns a
    value whenever the table has NORMAL, and it returns 0 only when NORMAL
    itself is 0: an entry of value 0 under another name is answered with
    NORMAL. *)
Theorem getBlendMode_result_valid (BLEND_MODES : gmap string Z) (name : option string) :
  exists r,
    getBlendMode BLEND_MODES name = Some r
    /\ (r = BLEND_MODES !! "NORMAL"
        \/ exists key v, BLEND_MODES !! key = Some v /\ v <> 0 /\ r = Some v)
    /\ (is_Some (BLEND_MODES !! "NORMAL") -> is_Some r)
    /\ (r = Some 0 -> BLEND_MODES !! "NORMAL" = Some 0).
Proof.
  assert (Hshape : exists r,
            getBlendMode BLEND_MODES name = Some r
            /\ (r = BLEND_MODES !! "NORMAL"
                \/ exists key v, BLEND_MODES !! key = Some v /\ v <> 0 /\ r = Some v)).
  { destruct name as [name |]; [| eexists; split; [reflexivity | left; reflexivity]].
    destruct (String.eqb_spec name "") as [-> | Hne];
      [eexists; split; [reflexivity | left; reflexivity] |].
    rewrite getBlendMode_named by exact Hne. eexists. split; [reflexivity |].
    destruct (lookupOrNormal_cases BLEND_MODES (Spec.underscored (JS.toUpperCase name)))
      as [-> | (v & Hv & Hnz & ->)]; [left; reflexivity |].
    right. eauto. }
  destruct Hshape as (r & Hr & Hcases). exists r. split; [exact Hr |].
  split; [exact Hcases |]. split.
  - intros Hnormal. destruct Hcases as [-> | (key & v & _ & _ & ->)]; eauto.
  - intros ->. destruct Hcases as [<- | (key & v & _ & Hnz & [= <-])];
      [reflexivity | contradiction].
Qed.

(** *** getBlendMode: spaces, underscores and case *)

Lemma upperChar_idem (c : ascii) : JS.upperChar (JS.upperChar c) = JS.upperChar c.
Proof. each_char c; reflexivity. Qed.

Lemma upperChar_underscored (c : ascii) :
  JS.upperChar (if Ascii.eqb c " " then "_"%char else c)
  = if Ascii.eqb (JS.upperChar c) " " then "_"%char else JS.upperChar c.
Proof. each_char c; reflexivity. Qed.

Lemma toUpperCase_idem (str : string) :
  JS.toUpperCase (JS.toUpperCase str) = JS.toUpperCase str.
Proof.
  induction str as [| c rest IH]; [reflexivity |].
  cbn [JS.toUpperCase]. rewrite upperChar_idem, IH. reflexivity.
Qed.

Lemma toUpperCase_underscored (str : string) :
  JS.toUpperCase (Spec.underscored str) = Spec.underscored (JS.toUpperCase str).
Proof.
  induction str as [| c rest IH]; [reflexivity |].
  cbn [JS.toUpperCase Spec.underscored]. rewrite upperChar_underscored, IH. reflexivity.
Qed.

Lemma underscored_idem (str : string) :
  Spec.underscored (Spec.underscored str) = Spec.underscored str.
Proof.
  induction str as [| c rest IH]; [reflexivity |].
  cbn [Spec.underscored]. rewrite IH.
  destruct (Ascii.eqb c " ") eqn:E; [reflexivity | rewrite E; reflexivity].
Qed.

Lemma getBlendMode_key (BLEND_MODES : gmap string Z) (a b : string) :
  (a = EmptyString <-> b = EmptyString) ->
  Spec.underscored (JS.toUpperCase a) = Spec.underscored (JS.toUpperCase b) ->
  getBlendMode BLEND_MODES (Some a) = getBlendMode BLEND_MODES (Some b).
Proof.
  intros Hempty Hkey.
  destruct (String.eqb_spec a "") as [Ha | Ha].
  - rewrite Ha, (proj1 Hempty Ha). reflexivity.
  - assert (Hb : b <> EmptyString) by (intros Hb; apply Ha, Hempty, Hb).
    rewrite !getBlendMode_named by assumption. rewrite Hkey. reflexivity.
Qed.

(** X16. A name, the name with its spaces turned into underscores, the
    name in upper case, and the key that is looked up all resolve to the
    same blend mode. *)
Theorem getBlendMode_spaces_and_underscores
    (BLEND_MODES : gmap string Z) (name : string) :
  let get := getBlendMode BLEND_MODES in
  get (Some (Spec.underscored name)) = get (Some name)
  /\ get (Some (JS.toUpperCase name)) = get (Some name)
  /\ get (Some (Spec.underscored (JS.toUpperCase name))) = get (Some name).
Proof.
  intros get. unfold get. split; [| split]; apply getBlendMode_key.
  - destruct name; cbn; split; congruence.
  - rewrite toUpperCase_underscored, underscored_idem. reflexivity.
  - destruct name; cbn; split; congruence.
  - rewrite toUpperCase_idem. reflexivity.
  - destruct name; cbn; split; congruence.
  - rewrite toUpperCase_underscored, toUpperCase_idem, underscored_idem. reflexivity.
Qed.

(** *** getBlendMode: the length of the loop *)

(** X17. The loop of [getBlendMode] replaces one space per iteration,
    from the left: it ends after exactly as many iterations as the name
    has spaces (fewer do not suffice), with every space turned into an
    underscore and nothing else changed. *)
Theorem replaceSpaces_iterations (fuel : nat) (name : string) :
  replaceSpaces fuel name
  = if (Spec.countSpaces name <=? fuel)%nat then Some (Spec.underscored name) else None.
Proof.
  destruct (Nat.leb_spec (Spec.countSpaces name) fuel) as [Hle | Hlt].
  - apply replaceSpaces_enough. exact Hle.
  - revert name Hlt. induction fuel as [| fuel IH]; intros name Hlt.
    + cbn [replaceSpaces]. rewrite indexOf_space.
      destruct (Nat.eqb_spec (Spec.countSpaces name) 0) as [H0 | _]; [lia | reflexivity].
    + cbn [replaceSpaces]. rewrite indexOf_space.
      destruct (Nat.eqb_spec (Spec.countSpaces name) 0) as [H0 | Hn]; [lia |].
      cbn [negb]. apply IH.
      destruct (replace_space_step name Hn) as [-> _]. lia.
Qed.

(** ** parseConfig, and more on spawn *)

(** *** parseConfig *)

Section ConfigFacts.
Variables Rng PolygonalChain PolygonData : Type.
Variable newPolygonalChain : PolygonData -> PolygonalChain.

Abbreviation CStore := (SpawnPolygonStrategy.Store Rng PolygonalChain).
Abbreviation parseConfig := (SpawnPolygonStrategy.parseConfig newPolygonalChain).
Abbreviation configured := (SpawnPolygonStrategy.configured newPolygonalChain).
Abbreviation andThen := (SpawnPolygonStrategy.bind Rng PolygonalChain).

Lemma parseConfig_run (e : positive) (c : PolygonData) (st : CStore)
    (em : Emitter.t PolygonalChain) :
  SpawnPolygonStrategy.emitters st !! e = Some em ->
  parseConfig e c st
  = Some (tt, SpawnPolygonStrategy.mkStore
                (<[e := configured em c]> (SpawnPolygonStrategy.emitters st))
                (SpawnPolygonStrategy.particles st) (SpawnPolygonStrategy.points st)
                (SpawnPolygonStrategy.Temp_point st) (SpawnPolygonStrategy.rng st)).
Proof.
  intros He.
  unfold SpawnPolygonStrategy.parseConfig, SpawnPolygonStrategy.setSpawnType,
    SpawnPolygonStrategy.setSpawnPolygonalChain, SpawnPolygonStrategy.bind,
    SpawnPolygonStrategy.getEmitter, SpawnPolygonStrategy.configured.
  rewrite He. cbn. rewrite lookup_insert_eq. cbn. rewrite insert_insert_eq.
  reflexivity.
Qed.

Lemma parseConfig_missing (e : positive) (c : PolygonData) (st : CStore) :
  SpawnPolygonStrategy.emitters st !! e = None -> parseConfig e c st = None.
Proof.
  intros He.
  unfold SpawnPolygonStrategy.parseConfig, SpawnPolygonStrategy.setSpawnType,
    SpawnPolygonStrategy.bind, SpawnPolygonStrategy.getEmitter.
  rewrite He. reflexivity.
Qed.

(** X18. [parseConfig] raises exactly when there is no emitter. When it
    returns, the emitter's spawn type is "polygonalChain" and its chain
    is the one built from the configuration's polygon; the emitter's
    position, rotation and start-rotation bounds, every other emitter,
    the particles, the points and the random generator are as before. *)
Theorem parseConfig_effect (e : positive) (c : PolygonData) (st : CStore) :
  (parseConfig e c st = None <-> SpawnPolygonStrategy.emitters st !! e = None)
  /\ (forall st', parseConfig e c st = Some (tt, st') ->
        SpawnPolygonStrategy.particles st' = SpawnPolygonStrategy.particles st
        /\ SpawnPolygonStrategy.points st' = SpawnPolygonStrategy.points st
        /\ SpawnPolygonStrategy.Temp_point st' = SpawnPolygonStrategy.Temp_point st
        /\ SpawnPolygonStrategy.rng st' = SpawnPolygonStrategy.rng st
        /\ (forall a, a <> e ->
              SpawnPolygonStrategy.emitters st' !! a
              = SpawnPolygonStrategy.emitters st !! a)
        /\ exists em em',
             SpawnPolygonStrategy.emitters st !! e = Some em
             /\ SpawnPolygonStrategy.emitters st' !! e = Some em'
             /\ Emitter.spawnType em' = "polygonalChain"
             /\ Emitter.spawnPolygonalChain em' = newPolygonalChain c
             /\ Emitter.position em' = Emitter.position em
             /\ Emitter.rotation em' = Emitter.rotation em
             /\ Emitter.minStartRotation em' = Emitter.minStartRotation em
             /\ Emitter.maxStartRotation em' = Emitter.maxStartRotation em).
Proof.
  destruct (SpawnPolygonStrategy.emitters st !! e) as [em |] eqn:He.
  - rewrite (parseConfig_run e c st em He). split; [split; discriminate |].
    intros st' [= <-]. cbn. repeat split.
    + intros a Ha. apply lookup_insert_ne. congruence.
    + exists em, (configured em c). rewrite lookup_insert_eq. repeat split.
  - rewrite (parseConfig_missing e c st He). split; [split; reflexivity |].
    intros st' H. discriminate H.
Qed.

(** X19. Configuring an emitter twice leaves what the second
    configuration alone would leave (and configuring it twice with the
    same polygon is the same as once); configuring two different emitters
    gives the same result in either order. *)
Theorem parseConfig_overwrites (e e2 : positive) (c1 c2 : PolygonData) (st : CStore) :
  andThen (parseConfig e c1) (fun _ => parseConfig e c2) st = parseConfig e c2 st
  /\ andThen (parseConfig e c1) (fun _ => parseConfig e c1) st = parseConfig e c1 st
  /\ (e <> e2 ->
      andThen (parseConfig e c1) (fun _ => parseConfig e2 c2) st
      = andThen (parseConfig e2 c2) (fun _ => parseConfig e c1) st).
Proof.
  assert (Hlast : forall c c',
            andThen (parseConfig e c) (fun _ => parseConfig e c') st
            = parseConfig e c' st).
  { intros c c'. unfold SpawnPolygonStrategy.bind at 1.
    destruct (SpawnPolygonStrategy.emitters st !! e) as [em |] eqn:He.
    - rewrite (parseConfig_run e c st em He).
      rewrite (parseConfig_run e c' _ (configured em c)) by apply lookup_insert_eq.
      rewrite (parseConfig_run e c' st em He). cbn. rewrite insert_insert_eq.
      reflexivity.
    - rewrite !parseConfig_missing by exact He. reflexivity. }
  split; [apply Hlast |]. split; [apply Hlast |].
  intros Hne. unfold SpawnPolygonStrategy.bind.
  destruct (SpawnPolygonStrategy.emitters st !! e) as [em |] eqn:He;
    destruct (SpawnPolygonStrategy.emitters st !! e2) as [em2 |] eqn:He2.
  - rewrite (parseConfig_run e c1 st em He), (parseConfig_run e2 c2 st em2 He2).
    rewrite (parseConfig_run e2 c2 _ em2)
      by (cbn; rewrite lookup_insert_ne by congruence; exact He2).
    rewrite (parseConfig_run e c1 _ em)
      by (cbn; rewrite lookup_insert_ne by congruence; exact He).
    cbn. rewrite insert_insert_ne by congruence. reflexivity.
  - rewrite (parseConfig_run e c1 st em He), (parseConfig_missing e2 c2 st He2).
    apply parseConfig_missing. cbn. rewrite lookup_insert_ne by congruence. exact He2.
  - rewrite (parseConfig_missing e c1 st He), (parseConfig_run e2 c2 st em2 He2).
    symmetry. apply parseConfig_missing. cbn.
    rewrite lookup_insert_ne by congruence. exact He.
  - rewrite (parseConfig_missing e c1 st He), (parseConfig_missing e2 c2 st He2).
    reflexivity.
Qed.
End ConfigFacts.

Lemma parseConfig_overwrites_witness :
  SpawnPolygonStrategy.bind nat Point.t
    (World.parseConfig 1%positive [Point.mk 5 6])
    (fun _ => World.parseConfig 1%positive [Point.mk 7 8])
    (World.store World.fixedEmitter)
  = World.parseConfig 1%positive [Point.mk 7 8] (World.store World.fixedEmitter).
Proof.
  apply (parseConfig_overwrites nat Point.t (list Point.t) World.newPolygonalChain
           1%positive 2%positive).
Defined.

(** *** spawn: errors, random draws, two particles *)

Section SpawnMore.
Variables Math_sin Math_cos : float -> float.
Variable Rng : Type.
Variable Math_random : Rng -> float * Rng.
Variable PolygonalChain : Type.
Variable getRandomPoint : PolygonalChain -> Point.t -> Rng -> Point.t * Rng.

Abbreviation Store := (SpawnPolygonStrategy.Store Rng PolygonalChain).
Abbreviation spawn :=
  (SpawnPolygonStrategy.spawn Math_sin Math_cos Math_random getRandomPoint).
Abbreviation startRotation := (SpawnPolygonStrategy.startRotation Math_random).
Abbreviation chainSample :=
  (SpawnPolygonStrategy.chainSample Math_random getRandomPoint).
Abbreviation spawnedPoint :=
  (SpawnPolygonStrategy.spawnedPoint Math_sin Math_cos Math_random getRandomPoint).
Abbreviation spawnable := (@SpawnPolygonStrategy.spawnable Rng PolygonalChain).

(** X20. [spawn] returns exactly when the particle, its emitter, the
    scratch point and the particle's position all exist; it raises
    exactly when the particle is missing, or one of the other three
    is. *)
Theorem spawn_raises_iff_missing (p : positive) (emitPosX emitPosY : float)
    (st : Store) :
  (is_Some (spawn p emitPosX emitPosY st)
   <-> exists part em tmp, spawnable st p part em tmp)
  /\ (spawn p emitPosX emitPosY st = None
      <-> SpawnPolygonStrategy.particles st !! p = None
          \/ exists part,
               SpawnPolygonStrategy.particles st !! p = Some part
               /\ (SpawnPolygonStrategy.emitters st !! Particle.emitter part = None
                   \/ SpawnPolygonStrategy.points st !! SpawnPolygonStrategy.Temp_point st
                      = None
                   \/ SpawnPolygonStrategy.points st !! Particle.position part = None)).
Proof.
  assert (Hiff : is_Some (spawn p emitPosX emitPosY st)
                 <-> exists part em tmp, spawnable st p part em tmp).
  { split.
    - intros [r Hr]. exact (spawn_some_inv _ _ _ _ _ _ _ _ _ _ _ Hr).
    - intros (part & em & tmp & Hok).
      destruct (spawn_run Math_sin Math_cos Rng Math_random PolygonalChain
                  getRandomPoint p emitPosX emitPosY st part em tmp Hok)
        as (st' & Hrun & _).
      rewrite Hrun. eauto. }
  split; [exact Hiff |].
  rewrite eq_None_not_Some, Hiff. unfold SpawnPolygonStrategy.spawnable. split.
  - intros Hno.
    destruct (SpawnPolygonStrategy.particles st !! p) as [part |] eqn:Hp;
      [right; exists part; split; [reflexivity |] | left; reflexivity].
    destruct (SpawnPolygonStrategy.emitters st !! Particle.emitter part)
      as [em |] eqn:He; [| left; reflexivity].
    destruct (SpawnPolygonStrategy.points st !! SpawnPolygonStrategy.Temp_point st)
      as [tmp |] eqn:Ht; [| right; left; reflexivity].
    destruct (SpawnPolygonStrategy.points st !! Particle.position part)
      as [pos |] eqn:Hpos; [| right; right; reflexivity].
    exfalso. apply Hno. exists part, em, tmp. rewrite Hpos. eauto.
  - intros Hmiss (part & em & tmp & Hp & He & Ht & [pos Hpos]).
    destruct Hmiss as [Hmiss | (part' & Hp' & Hmiss)]; [congruence |].
    assert (part' = part) as -> by congruence.
    destruct Hmiss as [Hmiss | [Hmiss | Hmiss]]; congruence.
Qed.

(** X21. The chain samples into the scratch point as the previous call
    left it. When the two bounds of the start rotation are equal,
    [Math.random] is not called and only the chain's sampling advances
    the generator; when they differ there is exactly one draw, made
    before the chain samples. *)
Theorem spawn_random_draws (p : positive) (emitPosX emitPosY : float) (st : Store)
    (part : Particle.t) (em : Emitter.t PolygonalChain) (tmp : Point.t) :
  spawnable st p part em tmp ->
  let chain := Emitter.spawnPolygonalChain em in
  let g := SpawnPolygonStrategy.rng st in
  exists st',
    spawn p emitPosX emitPosY st = Some (tt, st')
    /\ (JS.eqNum (Emitter.minStartRotation em) (Emitter.maxStartRotation em) = true ->
        SpawnPolygonStrategy.rng st' = snd (getRandomPoint chain tmp g))
    /\ (JS.eqNum (Emitter.minStartRotation em) (Emitter.maxStartRotation em) = false ->
        SpawnPolygonStrategy.rng st'
        = snd (getRandomPoint chain tmp (snd (Math_random g)))).
Proof.
  intros Hok chain g.
  destruct (spawn_run Math_sin Math_cos Rng Math_random PolygonalChain
              getRandomPoint p emitPosX emitPosY st part em tmp Hok)
    as (st' & Hrun & _ & _ & _ & Hrng & _).
  exists st'. split; [exact Hrun |].
  unfold SpawnPolygonStrategy.chainSample, SpawnPolygonStrategy.startRotation in Hrng.
  fold chain g in Hrng. split; intros Heq; rewrite Heq in Hrng; exact Hrng.
Qed.

(** X22. Two particles with positions of their own, spawned one after the
    other through the one shared scratch point: the first keeps the
    position and the rotation it got, and the second is placed from a
    sample of its own, drawn with the generator and the scratch point as
    the first call left them. *)
Theorem spawn_two_particles (p q : positive) (x y x' y' : float) (st : Store)
    (partp partq : Particle.t) (emp emq : Emitter.t PolygonalChain) (tmp : Point.t) :
  spawnable st p partp emp tmp ->
  spawnable st q partq emq tmp ->
  p <> q ->
  Particle.position partp <> Particle.position partq ->
  Particle.position partp <> SpawnPolygonStrategy.Temp_point st ->
  Particle.position partq <> SpawnPolygonStrategy.Temp_point st ->
  exists st1 st2,
    spawn p x y st = Some (tt, st1)
    /\ spawn q x' y' st1 = Some (tt, st2)
    /\ let pt1 := spawnedPoint emp tmp (SpawnPolygonStrategy.rng st) in
       let pt2 := spawnedPoint emq pt1 (SpawnPolygonStrategy.rng st1) in
       SpawnPolygonStrategy.points st2 !! Particle.position partp
       = Some (Point.mk (x + Point.x pt1)%float (y + Point.y pt1)%float)
       /\ SpawnPolygonStrategy.points st2 !! Particle.position partq
          = Some (Point.mk (x' + Point.x pt2)%float (y' + Point.y pt2)%float)
       /\ SpawnPolygonStrategy.points st2 !! SpawnPolygonStrategy.Temp_point st
          = Some pt2
       /\ SpawnPolygonStrategy.particles st2 !! p
          = SpawnPolygonStrategy.particles st1 !! p.
Proof.
  intros Hokp Hokq Hpq Hpos HpT HqT.
  destruct (spawn_run Math_sin Math_cos Rng Math_random PolygonalChain
              getRandomPoint p x y st partp emp tmp Hokp)
    as (st1 & Hrun1 & Hems1 & Hparts1 & Htemp1 & _ & Hpt1 & Hscratch1 & Hothers1).
  assert (Hokq1 : spawnable st1 q partq emq
                    (spawnedPoint emp tmp (SpawnPolygonStrategy.rng st))).
  { destruct Hokq as (Hq & Heq & _ & Hposq). repeat split.
    - rewrite Hparts1, lookup_insert_ne by congruence. exact Hq.
    - rewrite Hems1. exact Heq.
    - rewrite Htemp1. apply Hscratch1. exact HpT.
    - rewrite Hothers1 by congruence. exact Hposq. }
  destruct (spawn_run Math_sin Math_cos Rng Math_random PolygonalChain
              getRandomPoint q x' y' st1 partq emq _ Hokq1)
    as (st2 & Hrun2 & _ & Hparts2 & _ & _ & Hpt2 & Hscratch2 & Hothers2).
  exists st1, st2. split; [exact Hrun1 |]. split; [exact Hrun2 |].
  cbv zeta. rewrite Htemp1 in Hscratch2, Hothers2.
  split; [| split; [| split]].
  - rewrite Hothers2 by congruence. exact Hpt1.
  - exact Hpt2.
  - apply Hscratch2. exact HqT.
  - rewrite Hparts2. apply lookup_insert_ne. congruence.
Qed.
End SpawnMore.

Lemma spawn_random_draws_witness :
  exists st',
    World.spawn 7%positive 100 200 (World.store World.rangeEmitter) = Some (tt, st')
    /\ SpawnPolygonStrategy.rng st' = 1%nat.
Proof.
  destruct (spawn_random_draws World.trig World.trig nat World.Math_random
              Point.t World.getRandomPoint 7%positive 100 200
              (World.store World.rangeEmitter)
              World.particle World.rangeEmitter (Point.mk 0 0))
    as (st' & Hs & _ & Hdraw).
  - repeat split. exists (Point.mk 0 0). reflexivity.
  - exists st'. split; [exact Hs |]. apply Hdraw. reflexivity.
Defined.

Lemma spawn_two_particles_witness :
  exists st1 st2,
    World.spawn 7%positive 100 200 (World.crowd World.fixedEmitter) = Some (tt, st1)
    /\ World.spawn 8%positive 300 400 st1 = Some (tt, st2)
    /\ SpawnPolygonStrategy.points st2 !! 3%positive = Some (Point.mk 103 204)
    /\ SpawnPolygonStrategy.points st2 !! 4%positive = Some (Point.mk 303 404).
Proof.
  destruct (spawn_two_particles World.trig World.trig nat World.Math_random
              Point.t World.getRandomPoint 7%positive 8%positive 100 200 300 400
              (World.crowd World.fixedEmitter)
              World.particle World.secondParticle World.fixedEmitter World.fixedEmitter
              (Point.mk 0 0))
    as (st1 & st2 & H1 & H2 & Hp & Hq & _).
  - repeat split. exists (Point.mk 0 0). reflexivity.
  - repeat split. exists (Point.mk 0 0). reflexivity.
  - discriminate.
  - discriminate.
  - discriminate.
  - discriminate.
  - exists st1, st2. split; [exact H1 |]. split; [exact H2 |].
    split; [exact Hp | exact Hq].
Defined.

(** *** spawn with an emitter rotation that is falsy *)

Lemma spawnedPoint_falsy (Math_sin Math_cos : float -> float) (Rng : Type)
    (Math_random : Rng -> float * Rng) (PolygonalChain : Type)
    (getRandomPoint : PolygonalChain -> Point.t -> Rng -> Point.t * Rng)
    (em : Emitter.t PolygonalChain) (tmp : Point.t) (g : Rng) :
  JS.truthy (Emitter.rotation em) = false ->
  SpawnPolygonStrategy.spawnedPoint Math_sin Math_cos Math_random getRandomPoint em tmp g
  = fst (SpawnPolygonStrategy.chainSample Math_random getRandomPoint em tmp g).
Proof.
  intros H. unfold SpawnPolygonStrategy.spawnedPoint.
  destruct (JS.eqNum (Emitter.rotation em) 0); [reflexivity |].
  apply rotatePoint_falsy. exact H.
Qed.

(** X23. When the emitter's rotation is 0, -0 or NaN the sample is not
    rotated and [Math.sin] and [Math.cos] have no part in the result: any
    two implementations of them give the same final store, and the
    particle lands at the origin plus the sample. (NaN passes the test
    [!== 0], so [rotatePoint] is called, and returns at once.) With a NaN
    rotation the particle's own rotation becomes NaN. *)
Theorem spawn_falsy_rotation (Math_sin Math_cos sin' cos' : float -> float)
    (Rng : Type) (Math_random : Rng -> float * Rng) (PolygonalChain : Type)
    (getRandomPoint : PolygonalChain -> Point.t -> Rng -> Point.t * Rng)
    (p : positive) (emitPosX emitPosY : float)
    (st : SpawnPolygonStrategy.Store Rng PolygonalChain)
    (part : Particle.t) (em : Emitter.t PolygonalChain) (tmp : Point.t) :
  SpawnPolygonStrategy.spawnable st p part em tmp ->
  JS.truthy (Emitter.rotation em) = false ->
  let sample :=
    fst (SpawnPolygonStrategy.chainSample Math_random getRandomPoint em tmp
           (SpawnPolygonStrategy.rng st)) in
  exists st',
    SpawnPolygonStrategy.spawn Math_sin Math_cos Math_random getRandomPoint
      p emitPosX emitPosY st = Some (tt, st')
    /\ SpawnPolygonStrategy.spawn sin' cos' Math_random getRandomPoint
         p emitPosX emitPosY st = Some (tt, st')
    /\ SpawnPolygonStrategy.points st' !! Particle.position part
       = Some (Point.mk (emitPosX + Point.x sample)%float
                        (emitPosY + Point.y sample)%float)
    /\ (Emitter.rotation em = nan ->
        SpawnPolygonStrategy.particles st' !! p
        = Some (Particle.mk (Particle.emitter part) nan (Particle.position part))).
Proof.
  intros Hok Hfalsy sample.
  destruct (spawn_run Math_sin Math_cos Rng Math_random PolygonalChain
              getRandomPoint p emitPosX emitPosY st part em tmp Hok)
    as (st1 & Hrun1 & Hems1 & Hparts1 & Htemp1 & Hrng1 & Hpt1 & Hscratch1 & Hothers1).
  destruct (spawn_run sin' cos' Rng Math_random PolygonalChain
              getRandomPoint p emitPosX emitPosY st part em tmp Hok)
    as (st2 & Hrun2 & Hems2 & Hparts2 & Htemp2 & Hrng2 & Hpt2 & Hscratch2 & Hothers2).
  rewrite spawnedPoint_falsy in Hpt1, Hscratch1, Hpt2, Hscratch2 by exact Hfalsy.
  fold sample in Hpt1, Hscratch1, Hpt2, Hscratch2.
  assert (Hsame : st2 = st1).
  { destruct st1 as [ems1 parts1 pts1 T1 g1], st2 as [ems2 parts2 pts2 T2 g2].
    cbn in *. f_equal; try congruence.
    apply map_eq. intros a.
    destruct (decide (a = Particle.position part)) as [-> | Hpos]; [congruence |].
    destruct (decide (a = SpawnPolygonStrategy.Temp_point st)) as [-> | HT].
    - rewrite Hscratch1, Hscratch2 by congruence. reflexivity.
    - rewrite Hothers1, Hothers2 by assumption. reflexivity. }
  exists st1. split; [exact Hrun1 |]. split; [rewrite Hrun2, Hsame; reflexivity |].
  split; [exact Hpt1 |].
  intros Hnan. rewrite Hparts1, lookup_insert_eq. do 2 f_equal.
  unfold SpawnPolygonStrategy.startRotation. rewrite Hnan.
  destruct (JS.eqNum _ _); cbn [fst]; apply add_nan_r.
Qed.

Lemma spawn_falsy_rotation_witness :
  exists st',
    World.spawn 7%positive 100 200 (World.store World.nanEmitter) = Some (tt, st')
    /\ SpawnPolygonStrategy.points st' !! 3%positive = Some (Point.mk 103 204)
    /\ SpawnPolygonStrategy.particles st' !! 7%positive = Some (Particle.mk 1 nan 3).
Proof.
  destruct (spawn_falsy_rotation World.trig World.trig World.trig World.trig
              nat World.Math_random Point.t World.getRandomPoint 7%positive 100 200
              (World.store World.nanEmitter)
              World.particle World.nanEmitter (Point.mk 0 0))
    as (st' & Hs & _ & Hpos & Hrot).
  - repeat split. exists (Point.mk 0 0). reflexivity.
  - reflexivity.
  - exists st'. split; [exact Hs |]. split; [exact Hpos |]. apply Hrot. reflexivity.
Defined.

(** *** parseConfig, then spawn *)

(** X24. After [parseConfig] on its emitter, a particle is spawned at the
    origin plus a sample of the chain built from the configuration's
    polygon (rotated when the emitter's rotation is not zero), and with
    the same start rotation as the emitter gave before it was
    configured. *)
Theorem parseConfig_then_spawn (Math_sin Math_cos : float -> float)
    (Rng : Type) (Math_random : Rng -> float * Rng) (PolygonalChain : Type)
    (getRandomPoint : PolygonalChain -> Point.t -> Rng -> Point.t * Rng)
    (PolygonData : Type) (newPolygonalChain : PolygonData -> PolygonalChain)
    (p : positive) (emitPosX emitPosY : float) (c : PolygonData)
    (st : SpawnPolygonStrategy.Store Rng PolygonalChain)
    (part : Particle.t) (em : Emitter.t PolygonalChain) (tmp : Point.t) :
  SpawnPolygonStrategy.spawnable st p part em tmp ->
  let g := SpawnPolygonStrategy.rng st in
  let rotation := SpawnPolygonStrategy.startRotation Math_random em g in
  let sample := fst (getRandomPoint (newPolygonalChain c) tmp (snd rotation)) in
  let pt :=
    if JS.eqNum (Emitter.rotation em) 0 then sample
    else rotatePoint Math_sin Math_cos (Emitter.rotation em) sample in
  exists st1 st2,
    SpawnPolygonStrategy.parseConfig newPolygonalChain (Particle.emitter part) c st
    = Some (tt, st1)
    /\ SpawnPolygonStrategy.spawn Math_sin Math_cos Math_random getRandomPoint
         p emitPosX emitPosY st1 = Some (tt, st2)
    /\ SpawnPolygonStrategy.emitters st2 !! Particle.emitter part
       = Some (SpawnPolygonStrategy.configured newPolygonalChain em c)
    /\ SpawnPolygonStrategy.points st2 !! Particle.position part
       = Some (Point.mk (emitPosX + Point.x pt)%float (emitPosY + Point.y pt)%float)
    /\ SpawnPolygonStrategy.particles st2 !! p
       = Some (Particle.mk (Particle.emitter part) (fst rotation)
                 (Particle.position part)).
Proof.
  intros Hok g rotation sample pt.
  pose proof Hok as (Hp & He & Ht & Hpos).
  pose proof (parseConfig_run Rng PolygonalChain PolygonData newPolygonalChain
                (Particle.emitter part) c st em He) as Hpc.
  set (st1 := SpawnPolygonStrategy.mkStore _ _ _ _ _) in Hpc.
  assert (Hok1 : SpawnPolygonStrategy.spawnable st1 p part
                   (SpawnPolygonStrategy.configured newPolygonalChain em c) tmp).
  { repeat split; cbn; [exact Hp | apply lookup_insert_eq | exact Ht | exact Hpos]. }
  destruct (spawn_run Math_sin Math_cos Rng Math_random PolygonalChain
              getRandomPoint p emitPosX emitPosY st1 part _ tmp Hok1)
    as (st2 & Hrun & Hems & Hparts & _ & _ & Hpt & _).
  exists st1, st2. split; [exact Hpc |]. split; [exact Hrun |].
  split; [rewrite Hems; apply lookup_insert_eq |].
  split; [exact Hpt |].
  rewrite Hparts. apply lookup_insert_eq.
Qed.

Lemma parseConfig_then_spawn_witness :
  exists st1 st2,
    World.parseConfig 1%positive [Point.mk 5 6] (World.store World.fixedEmitter)
    = Some (tt, st1)
    /\ World.spawn 7%positive 100 200 st1 = Some (tt, st2)
    /\ SpawnPolygonStrategy.points st2 !! 3%positive = Some (Point.mk 105 206).
Proof.
  destruct (parseConfig_then_spawn World.trig World.trig nat World.Math_random
              Point.t World.getRandomPoint (list Point.t) World.newPolygonalChain
              7%positive 100 200 [Point.mk 5 6] (World.store World.fixedEmitter)
              World.particle World.fixedEmitter (Point.mk 0 0))
    as (st1 & st2 & H1 & H2 & _ & Hpos & _).
  - repeat split. exists (Point.mk 0 0). reflexivity.
  - exists st1, st2. split; [exact H1 |]. split; [exact H2 |]. exact Hpos.
Defined.

